(** * Listings synchronisation engine: server.js and script.js

    A shallow embedding of the socket handlers of [server.js] (the
    authoritative replica, its persistence backend, the presence set) and of
    the real-time part of [script.js] (offline queue, connect handler,
    application of broadcasts), followed by the properties of the
    synchronisation protocol.

    Conventions of the embedding
    - a JavaScript value that may be [null]/[undefined] is an [option];
      reading a property of [None] raises a TypeError, as in the source;
    - a listing is an object; the engine only reads its [id] and [title],
      the other fields are carried in [l_details];
    - arrays are lists: [unshift] is cons, [arr[i] = x] is [<[i:=x]>],
      [splice(i,1)] is [delete i], [filter] is [List.filter];
    - every handler is a computation in a state-and-exception monad, and
      handlers run one at a time: the single-writer discipline the design
      asks for around the replica and its backend;
    - the [timestamp: new Date()] field of broadcasts is never read by any
      receiver and is left out. *)

From stdpp Require Import base gmap sets list strings.
From Stdlib Require Import Lia.

Open Scope string_scope.
Open Scope list_scope.

(** ** A small monad for handler bodies *)

Module JS.

Inductive Completion (A : Type) : Type :=
| Normal (a : A)
| Throw (e : string).
Arguments Normal {A} a.
Arguments Throw {A} e.

Definition M (S A : Type) : Type := S -> Completion A * S.

Definition ret {S A} (a : A) : M S A := fun s => (Normal a, s).

Definition bind {S A B} (m : M S A) (k : A -> M S B) : M S B :=
  fun s => match m s with
           | (Normal a, s') => k a s'
           | (Throw e, s') => (Throw e, s')
           end.

Definition throw {S A} (e : string) : M S A := fun s => (Throw e, s).

Definition get {S} : M S S := fun s => (Normal s, s).

Definition gets {S A} (f : S -> A) : M S A := fun s => (Normal (f s), s).

Definition modify {S} (f : S -> S) : M S unit := fun s => (Normal tt, f s).

(** [try { body } catch (err) { handler(err) }] *)
Definition try_catch {S A} (body : M S A) (handler : string -> M S A) : M S A :=
  fun s => match body s with
           | (Normal a, s') => (Normal a, s')
           | (Throw e, s') => handler e s'
           end.

(** [if (c) { body }] without an else branch *)
Definition when {S} (c : bool) (body : M S unit) : M S unit :=
  if c then body else ret tt.

(** [for (const x of xs) { body(x) }] over a fixed array *)
Fixpoint for_of {S A} (xs : list A) (body : A -> M S unit) : M S unit :=
  match xs with
  | [] => ret tt
  | x :: xs' => bind (body x) (fun _ => for_of xs' body)
  end.

(** State in which a computation leaves the program, thrown or not. *)
Definition exec {S A} (m : M S A) (s : S) : S := snd (m s).

Definition threw {S A} (m : M S A) (s : S) : bool :=
  match fst (m s) with Normal _ => false | Throw _ => true end.

(** [Array.prototype.findIndex]; [None] stands for -1. *)
Fixpoint findIndex {A} (p : A -> bool) (l : list A) : option nat :=
  match l with
  | [] => None
  | x :: l' => if p x then Some 0 else S <$> findIndex p l'
  end.

(** [Array.prototype.find]; [None] stands for [undefined]. *)
Fixpoint find {A} (p : A -> bool) (l : list A) : option A :=
  match l with
  | [] => None
  | x :: l' => if p x then Some x else find p l'
  end.

End JS.

(** Handler bodies are written [x ← c; k] and [c;; k]. *)
Declare Scope js_scope.
Delimit Scope js_scope with js.
Notation "x ← y ; z" := (JS.bind y (fun x => z)) (only parsing) : js_scope.
Notation "x ;; z" := (JS.bind x (fun _ => z)) (only parsing) : js_scope.
Open Scope js_scope.

(** ** Listings *)

(** The value of an [id] property: [None] is [undefined] (property absent). *)
Definition JsId : Type := option string.

(** Truthiness of an id, as tested by [listing.id] in a condition. *)
Definition truthy (i : JsId) : bool :=
  match i with
  | Some s => negb (String.eqb s EmptyString)
  | None => false
  end.

(** [a === b] on ids. *)
Definition id_eqb (a b : JsId) : bool := bool_decide (a = b).

Record Listing : Type := mkListing {
  l_id : JsId;
  l_title : string;
  l_details : string
}.

(** A payload position that may hold [null]. *)
Definition Payload : Type := option Listing.

(** [listing.title] and [listing.id] on a possibly-null payload. *)
Definition get_title {S} (p : Payload) : JS.M S string :=
  match p with
  | Some l => JS.ret (l_title l)
  | None => JS.throw "TypeError: Cannot read properties of null (reading 'title')"
  end.

Definition get_id {S} (p : Payload) : JS.M S JsId :=
  match p with
  | Some l => JS.ret (l_id l)
  | None => JS.throw "TypeError: Cannot read properties of null (reading 'id')"
  end.

(** The body of an [update-listings] broadcast. *)
Record UpdateMsg : Type := mkUpdateMsg {
  action : string;
  listing : Payload;
  listingId : JsId
}.

(** Insert-or-replace by id, the cache update of [saveListing]:
    [idx = findIndex(l => l.id === listing.id)], then [unshift] or
    [listings[idx] = listing]. *)
Definition upsert (x : Listing) (ls : list Listing) : list Listing :=
  match JS.findIndex (fun l => id_eqb (l_id l) (l_id x)) ls with
  | None => x :: ls
  | Some idx => <[idx := x]> ls
  end.

(** [listings.filter(l => l.id !== listingId)] *)
Definition remove_id (i : JsId) (ls : list Listing) : list Listing :=
  List.filter (fun l => negb (id_eqb (l_id l) i)) ls.

(** ** The server: server.js *)

Module Server.

Inductive Target : Type :=
| ToAll                      (* io.emit *)
| ToSocket (sid : string).   (* socket.emit *)

Inductive Event : Type :=
| users_count (n : nat)
| sync_all_listings (ls : list Listing)
| update_listings (m : UpdateMsg).

(** Calls made to the persistence backend. *)
Inductive WriteOp : Type :=
| WriteFile (ls : list Listing)   (* fs.writeFileSync(DATA_FILE, listings) *)
| DocSet (l : Listing)            (* db.collection('listings').doc(id).set *)
| DocDelete (i : JsId).           (* db.collection('listings').doc(id).delete *)

(** What the process does not control: which backend was configured at
    start-up and whether the n-th backend call succeeds. *)
Record Env : Type := mkEnv {
  useCloudBackend : bool;
  db : bool;                 (* [db] is non-null *)
  write_ok : nat -> bool
}.

Record State : Type := mkState {
  listings : list Listing;
  clients : gset string;
  backend : list (WriteOp * bool);   (* backend calls so far, with outcome *)
  outbox : list (Target * Event);    (* emitted events, oldest first *)
  errors : list string               (* console.error *)
}.

(** State at server start: [let listings = []], [new Set()]. *)
Definition init : State := mkState [] ∅ [] [] [].

Definition set_listings (f : list Listing -> list Listing) (s : State) : State :=
  mkState (f (listings s)) (clients s) (backend s) (outbox s) (errors s).

Definition set_clients (f : gset string -> gset string) (s : State) : State :=
  mkState (listings s) (f (clients s)) (backend s) (outbox s) (errors s).

Definition emit (t : Target) (e : Event) : JS.M State unit :=
  JS.modify (fun s =>
    mkState (listings s) (clients s) (backend s) (outbox s ++ [(t, e)]) (errors s)).

Definition console_error (msg : string) : JS.M State unit :=
  JS.modify (fun s =>
    mkState (listings s) (clients s) (backend s) (outbox s) (errors s ++ [msg])).

(** One call to the backend; the answer is whether it succeeded. *)
Definition persist (env : Env) (op : WriteOp) : JS.M State bool :=
  fun s =>
    let ok := write_ok env (length (backend s)) in
    (JS.Normal ok,
     mkState (listings s) (clients s) (backend s ++ [(op, ok)]) (outbox s) (errors s)).

(** A backend call that is awaited: failure is a rejection. *)
Definition await_persist (env : Env) (op : WriteOp) (msg : string) : JS.M State unit :=
  ok ← persist env op;
  if ok then JS.ret tt else JS.throw msg.

Definition local_mode (env : Env) : bool :=
  negb (useCloudBackend env) || negb (db env).

Definition saveListingsLocal (env : Env) : JS.M State unit :=
  JS.try_catch
    (ls ← JS.gets listings;
     await_persist env (WriteFile ls) "writeFileSync failed")
    (fun _ => console_error "Failed to save listings:").

Definition saveListing (env : Env) (x : Listing) : JS.M State unit :=
  JS.try_catch
    (if local_mode env then
       JS.modify (set_listings (upsert x));;
       saveListingsLocal env
     else
       await_persist env (DocSet x) "set failed";;
       JS.modify (set_listings (upsert x)))
    (fun _ => console_error "Failed to save listing to Firebase:").

Definition deleteListing (env : Env) (i : JsId) : JS.M State unit :=
  JS.try_catch
    (if local_mode env then
       JS.modify (set_listings (remove_id i));;
       saveListingsLocal env
     else
       await_persist env (DocDelete i) "delete failed";;
       JS.modify (set_listings (remove_id i)))
    (fun _ => console_error "Failed to delete listing from Firebase:").

(** [clientListings.filter(l => l && l.id && !existingIds.has(l.id))] *)
Definition keep_candidate (existingIds : list JsId) (c : Payload) : option Listing :=
  match c with
  | Some l =>
      if truthy (l_id l) && negb (bool_decide (l_id l ∈ existingIds))
      then Some l else None
  | None => None
  end.

Definition toAdd (ls : list Listing) (clientListings : list Payload) : list Listing :=
  omap (keep_candidate (l_id <$> ls)) clientListings.

(** *** Socket handlers *)

Definition on_connection (sid : string) : JS.M State unit :=
  JS.modify (set_clients (fun c => {[sid]} ∪ c));;
  n ← JS.gets (fun s => size (clients s));
  emit ToAll (users_count n);;
  JS.try_catch
    (ls ← JS.gets listings; emit (ToSocket sid) (sync_all_listings ls))
    (fun _ => JS.ret tt).

Definition on_listing_added (env : Env) (p : Payload) : JS.M State unit :=
  _ ← get_title p;                          (* console.log(.., listing.title) *)
  match p with
  | Some l => JS.when (truthy (l_id l)) (saveListing env l)
  | None => JS.ret tt
  end;;
  emit ToAll (update_listings (mkUpdateMsg "added" p None)).

Definition on_listing_deleted (env : Env) (i : JsId) : JS.M State unit :=
  deleteListing env i;;
  emit ToAll (update_listings (mkUpdateMsg "deleted" None i)).

Definition on_listing_updated (env : Env) (p : Payload) : JS.M State unit :=
  _ ← get_id p;                             (* console.log(.., listing.id) *)
  match p with
  | Some l => saveListing env l
  | None => JS.ret tt
  end;;
  emit ToAll (update_listings (mkUpdateMsg "updated" p None)).

(** The argument is [None] when it is not an array. *)
Definition on_sync_listings (env : Env) (clientListings : option (list Payload))
  : JS.M State unit :=
  JS.try_catch
    (match clientListings with
     | Some cl =>
         JS.when (negb (Nat.eqb (length cl) 0))
           (ls ← JS.gets listings;
            let adds := toAdd ls cl in
            JS.when (negb (Nat.eqb (length adds) 0))
              (JS.for_of adds (saveListing env)))
     | None => JS.ret tt
     end)
    (fun _ => console_error "Error merging listings:");;
  ls ← JS.gets listings;
  emit ToAll (sync_all_listings ls).

Definition on_disconnect (sid : string) : JS.M State unit :=
  JS.modify (set_clients (fun c => c ∖ {[sid]}));;
  n ← JS.gets (fun s => size (clients s));
  emit ToAll (users_count n).

(** Events a socket can deliver to the server. *)
Inductive Inbound : Type :=
| connection
| listing_added (p : Payload)
| listing_deleted (i : JsId)
| listing_updated (p : Payload)
| sync_listings (cl : option (list Payload))
| disconnect.

Definition handle (env : Env) (sid : string) (ev : Inbound) : JS.M State unit :=
  match ev with
  | connection => on_connection sid
  | listing_added p => on_listing_added env p
  | listing_deleted i => on_listing_deleted env i
  | listing_updated p => on_listing_updated env p
  | sync_listings cl => on_sync_listings env cl
  | disconnect => on_disconnect sid
  end.

(** The server processes a trace of (socket, event) pairs one handler at a
    time; an exception ends that handler only. *)
Definition run (env : Env) (tr : list (string * Inbound)) (s : State) : State :=
  foldl (fun st '(sid, ev) => JS.exec (handle env sid ev) st) s tr.

End Server.

(** ** The client: the real-time part of script.js *)

Module Client.

(** Argument of a [socket.emit]: a listing, an id, or the whole replica. *)
Inductive Arg : Type :=
| AListing (p : Payload)
| AId (i : JsId)
| AListings (ls : list Listing).

(** A queued update as [JSON.stringify] writes it. *)
Record Update : Type := mkUpdate {
  u_id : nat;            (* Date.now() + Math.random() *)
  u_action : string;
  u_data : Arg;
  u_timestamp : nat      (* new Date().toISOString() *)
}.

Inductive Notification : Type :=
| offline_synced (n : nat)
| new_listing (title : string)
| listing_removed
| listing_changed (title : string).

(** Whether the n-th call of [socket.emit] returns ([true]) or raises. *)
Record Env : Type := mkEnv {
  emit_ok : nat -> bool
}.

(** Objects of [updateQueue] are compared by identity ([indexOf]); each
    carries the address it was allocated at. [localStorage] survives a
    reload of the page, the rest does not; [emits] records what reached
    [socket.emit], for the properties only. *)
Record State : Type := mkState {
  isConnected : bool;
  updateQueue : list (nat * Update);
  isSyncing : bool;
  listings : list Listing;
  next_ref : nat;
  stored_queue : option (list Update);      (* localStorage 'updateQueue' *)
  stored_listings : option (list Listing);  (* localStorage STORAGE_KEY *)
  emits : list (string * Arg * bool);
  notifications : list Notification;
  errors : list string
}.

Definition set_connected (b : bool) (s : State) : State :=
  mkState b (updateQueue s) (isSyncing s) (listings s) (next_ref s)
    (stored_queue s) (stored_listings s) (emits s) (notifications s) (errors s).

Definition set_queue (f : list (nat * Update) -> list (nat * Update)) (s : State) : State :=
  mkState (isConnected s) (f (updateQueue s)) (isSyncing s) (listings s) (next_ref s)
    (stored_queue s) (stored_listings s) (emits s) (notifications s) (errors s).

Definition set_syncing (b : bool) (s : State) : State :=
  mkState (isConnected s) (updateQueue s) b (listings s) (next_ref s)
    (stored_queue s) (stored_listings s) (emits s) (notifications s) (errors s).

Definition set_listings (f : list Listing -> list Listing) (s : State) : State :=
  mkState (isConnected s) (updateQueue s) (isSyncing s) (f (listings s)) (next_ref s)
    (stored_queue s) (stored_listings s) (emits s) (notifications s) (errors s).

Definition showNotification (n : Notification) : JS.M State unit :=
  JS.modify (fun s =>
    mkState (isConnected s) (updateQueue s) (isSyncing s) (listings s) (next_ref s)
      (stored_queue s) (stored_listings s) (emits s) (notifications s ++ [n]) (errors s)).

Definition console_error (msg : string) : JS.M State unit :=
  JS.modify (fun s =>
    mkState (isConnected s) (updateQueue s) (isSyncing s) (listings s) (next_ref s)
      (stored_queue s) (stored_listings s) (emits s) (notifications s) (errors s ++ [msg])).

(** [socket.emit(event, arg)] *)
Definition socket_emit (env : Env) (event : string) (arg : Arg) : JS.M State unit :=
  fun s =>
    let ok := emit_ok env (length (emits s)) in
    let s' :=
      mkState (isConnected s) (updateQueue s) (isSyncing s) (listings s) (next_ref s)
        (stored_queue s) (stored_listings s) (emits s ++ [(event, arg, ok)])
        (notifications s) (errors s) in
    (if ok then JS.Normal tt else JS.Throw "emit failed", s').

(** [updateQueue = stored ? JSON.parse(stored) : []]; parsing allocates
    fresh objects. *)
Definition loadUpdateQueue : JS.M State unit :=
  JS.modify (fun s =>
    let us := default [] (stored_queue s) in
    mkState (isConnected s) (zip (seq (next_ref s) (length us)) us) (isSyncing s)
      (listings s) (next_ref s + length us)
      (stored_queue s) (stored_listings s) (emits s) (notifications s) (errors s)).

(** [localStorage.setItem('updateQueue', JSON.stringify(updateQueue))] *)
Definition saveUpdateQueue : JS.M State unit :=
  JS.modify (fun s =>
    mkState (isConnected s) (updateQueue s) (isSyncing s) (listings s) (next_ref s)
      (Some (snd <$> updateQueue s)) (stored_listings s) (emits s)
      (notifications s) (errors s)).

(** [uid] and [ts] are the two clock readings of the object literal. *)
Definition queueUpdate (uid ts : nat) (act : string) (data : Arg) : JS.M State unit :=
  let update := mkUpdate uid act data ts in
  JS.modify (fun s =>
    mkState (isConnected s) (updateQueue s ++ [(next_ref s, update)]) (isSyncing s)
      (listings s) (S (next_ref s))
      (stored_queue s) (stored_listings s) (emits s) (notifications s) (errors s));;
  saveUpdateQueue.

(** [updateQueue.indexOf(update)]: strict equality of objects. *)
Definition indexOf (update : nat * Update) (q : list (nat * Update)) : option nat :=
  JS.findIndex (fun u => Nat.eqb (fst u) (fst update)) q.

(** The body of the loop of [processUpdateQueue], for one element of the
    snapshot. *)
Definition process_one (env : Env) (update : nat * Update) : JS.M State unit :=
  JS.try_catch
    (idx ← JS.gets (fun s => indexOf update (updateQueue s));
     let act := u_action (snd update) in
     (if String.eqb act "listing-added" || String.eqb act "listing-updated" then
        socket_emit env act (u_data (snd update))
      else if String.eqb act "listing-deleted" then
        socket_emit env act (u_data (snd update))
      else JS.ret tt);;
     match idx with
     | Some i => JS.modify (set_queue (delete i))
     | None => JS.ret tt
     end)
    (fun _ => console_error "Error processing queued update:").

Definition processUpdateQueue (env : Env) : JS.M State unit :=
  s ← JS.get;
  if negb (isConnected s) || Nat.eqb (length (updateQueue s)) 0 || isSyncing s
  then JS.ret tt
  else
    JS.modify (set_syncing true);;
    let toProcess := updateQueue s in
    JS.for_of toProcess (process_one env);;
    saveUpdateQueue;;
    JS.modify (set_syncing false);;
    showNotification (offline_synced (length toProcess)).

(** *** Socket handlers *)

(** [socket] is assigned before the handlers are registered, so the test
    [if (socket)] holds whenever one of them runs. *)
Definition on_connect (env : Env) : JS.M State unit :=
  JS.modify (set_connected true);;
  ls ← JS.gets listings;
  socket_emit env "sync-listings" (AListings ls);;
  processUpdateQueue env.

Definition on_disconnect : JS.M State unit :=
  JS.modify (set_connected false).

Definition on_reconnect (env : Env) : JS.M State unit :=
  JS.modify (set_connected true);;
  processUpdateQueue env.

(** The callbacks of [find] and [findIndex] read [data.listing.id] once per
    element of the replica, so a null [listing] raises only when the
    replica is non-empty. For "added" on an empty replica the source then
    pushes the null and raises on [data.listing.title]; replicas here hold
    no null entry, and the model raises without the push. The server never
    broadcasts an "added" or "updated" message with a null listing. *)
Definition on_update_listings (data : UpdateMsg) : JS.M State unit :=
  (if String.eqb (action data) "added" then
     ls ← JS.gets listings;
     match listing data with
     | Some x =>
         match JS.find (fun l => id_eqb (l_id l) (l_id x)) ls with
         | None =>
             JS.modify (set_listings (cons x));;
             showNotification (new_listing (l_title x))
         | Some _ => JS.ret tt
         end
     | None => _ ← get_id (listing data); JS.ret tt
     end
   else if String.eqb (action data) "deleted" then
     JS.modify (set_listings (remove_id (listingId data)));;
     showNotification listing_removed
   else if String.eqb (action data) "updated" then
     ls ← JS.gets listings;
     match listing data with
     | Some x =>
         match JS.findIndex (fun l => id_eqb (l_id l) (l_id x)) ls with
         | Some idx =>
             JS.modify (set_listings (fun ls => <[idx := x]> ls));;
             showNotification (listing_changed (l_title x))
         | None => JS.ret tt
         end
     | None =>
         match ls with
         | [] => JS.ret tt
         | _ :: _ => _ ← get_id (listing data); JS.ret tt
         end
     end
   else JS.ret tt).

Definition on_sync_all_listings (syncedListings : list Listing) : JS.M State unit :=
  JS.modify (set_listings (fun _ => syncedListings)).

(** [socket.on('users-count')] only rewrites the status text. *)
Definition on_users_count (count : nat) : JS.M State unit := JS.ret tt.

(** Dispatch of an event received from the server. *)
Definition receive (e : Server.Event) : JS.M State unit :=
  match e with
  | Server.users_count n => on_users_count n
  | Server.sync_all_listings ls => on_sync_all_listings ls
  | Server.update_listings m => on_update_listings m
  end.

(** *** Page load *)

(** The page as the script leaves it after a (re)load: module-level
    variables at their initial values, then [loadListings()] and, on the
    [load] event, [initializeWebSocket()] with its [loadUpdateQueue()].
    [defaults] is the built-in list used when nothing is stored; [sq],
    [sl] and [net] are what the reload does not erase. *)
Definition boot (defaults : list Listing) (sq : option (list Update))
    (sl : option (list Listing)) (net : list (string * Arg * bool)) : State :=
  JS.exec loadUpdateQueue
    (mkState false [] false (default defaults sl) 0 sq sl net [] []).

(** An abrupt termination followed by a reload. *)
Definition restart (defaults : list Listing) (s : State) : State :=
  boot defaults (stored_queue s) (stored_listings s) (emits s).

End Client.


(** ** Start-up of the server and its local file: server.js *)

Module Startup.

(** [DATA_FILE] as [loadListingsLocal] finds it: absent, present but not
  readable as JSON, or holding an array of listings. *)
Inductive DataFile : Type :=
| Missing
| Unreadable
| Content (ls : list Listing).

Definition loadListingsLocal (f : DataFile) : JS.M Server.State unit :=
JS.try_catch
  (match f with
   | Content ls => JS.modify (Server.set_listings (fun _ => ls))
   | Unreadable => JS.throw "SyntaxError: Unexpected token in JSON"
   | Missing => JS.modify (Server.set_listings (fun _ => []))
   end)
  (fun _ =>
     Server.console_error "Failed to load listings:";;
     JS.modify (Server.set_listings (fun _ => []))).

(** What [initializeFirebase] looks at. [init_ok] tells whether loading the
  service account, [initializeApp] and [admin.firestore()] all return. *)
Record Probe : Type := mkProbe {
key_file_exists : bool;          (* fs.existsSync(serviceAccountPath) *)
projectId : option string;       (* process.env.FIREBASE_PROJECT_ID *)
init_ok : bool
}.

(** The pair ([db] is non-null, [useCloudBackend]) that
  [initializeFirebase] leaves. *)
Definition initializeFirebase (p : Probe) : bool * bool :=
if key_file_exists p && truthy (projectId p) then
  if init_ok p then (true, true) else (false, false)
else (false, false).

(** [loadListingsFromFirebase]; [snapshot] is the result of the query, the
  documents already turned into listings, or [None] when it is rejected. *)
Definition loadListingsFromFirebase (env : Server.Env) (f : DataFile)
  (snapshot : option (list Listing)) : JS.M Server.State unit :=
JS.try_catch
  (if Server.local_mode env then loadListingsLocal f
   else
     match snapshot with
     | Some docs => JS.modify (Server.set_listings (fun _ => docs))
     | None => JS.throw "query failed"
     end)
  (fun _ =>
     Server.console_error "Failed to load listings from Firebase:";;
     loadListingsLocal f).

(** The module-level statements up to [server.listen]: the replica is
  loaded from the store the flags select. (The cloud query is not
  awaited by the script; the load is taken to be over before the first
  event is handled.) *)
Definition start (env : Server.Env) (f : DataFile) (snapshot : option (list Listing))
: Server.State :=
JS.exec
  (if Server.useCloudBackend env then loadListingsFromFirebase env f snapshot
   else loadListingsLocal f)
  Server.init.

End Startup.

(** ** The upload endpoint and the admin check: server.js *)

Module Http.






(** [req.file] as multer's memory storage leaves it. *)
Record File : Type := mkFile {
originalname : string;
mimetype : string;
buffer : string
}.

(** The [fileFilter] of the multer instance: [startsWith('image/')]. *)
Definition fileFilter (f : File) : bool := String.prefix "image/" (mimetype f).


(** Objects written to the bucket, as (folder, timestamp, file): the object
  is named folder/timestamp-originalname. *)
Record State : Type := mkState {
stored : list (string * nat * File);
errors : list string
}.

Definition console_error (msg : string) : JS.M State unit :=
JS.modify (fun s => mkState (stored s) (errors s ++ [msg])).

Section Upload.

(** [buffer.toString('base64')] *)
Variable base64 : string -> string.




End Upload.

End Http.

(** ** Local mutations on the client: script.js *)

Module Ui.

Import Client.

(** [localStorage.setItem(STORAGE_KEY, JSON.stringify(listings))], then the
  reconciliation request when connected. [socket] is null only before
  the page has loaded, when [isConnected] is false as well, so
  [socket && isConnected] is [isConnected]. *)
Definition saveListings (env : Env) : JS.M State unit :=
JS.modify (fun s =>
  mkState (isConnected s) (updateQueue s) (isSyncing s) (listings s) (next_ref s)
    (stored_queue s) (Some (listings s)) (emits s) (notifications s) (errors s));;
s ← JS.get;
JS.when (isConnected s) (socket_emit env "sync-listings" (AListings (listings s))).

(** The tail of every local mutation: send now, or queue.
  [if (socket && isConnected) emit else if (!isConnected) queueUpdate] *)
Definition dispatch (env : Env) (uid ts : nat) (act : string) (data : Arg)
: JS.M State unit :=
s ← JS.get;
if isConnected s then socket_emit env act data
else if negb (isConnected s) then queueUpdate uid ts act data
else JS.ret tt.

(** [deleteListing(id)]; [confirmed] is the answer to [confirm(...)], [id]
  the [data-id] attribute of the button, a string. *)
Definition deleteListing (env : Env) (confirmed : bool) (uid ts : nat) (id : string)
: JS.M State unit :=
if negb confirmed then JS.ret tt
else
  JS.modify (set_listings (remove_id (Some id)));;
  saveListings env;;
  dispatch env uid ts "listing-deleted" (AId (Some id)).

(** The create branch of the submit handler of the edit form, once the
  form is read: [admin] is [sessionStorage.getItem('isAdmin')],
  [newListing] the object built from the fields, its id taken from the
  clock. (The edit branch changes an object of the replica in place;
  queued intents may hold the same object, which values cannot show, and
  it is left out.) *)
Definition createListing (env : Env) (admin : bool) (uid ts : nat)
  (newListing : Listing) : JS.M State unit :=
if negb admin then JS.ret tt
else
  JS.modify (set_listings (cons newListing));;
  saveListings env;;
  dispatch env uid ts "listing-added" (AListing (Some newListing)).

(** What can happen to a loaded page. *)
Inductive Step : Type :=
| received (e : Server.Event)
| connect
| disconnect
| reconnect
| delete (confirmed : bool) (uid ts : nat) (id : string)
| create (admin : bool) (uid ts : nat) (newListing : Listing).

Definition step (env : Env) (st : Step) : JS.M State unit :=
match st with
| received e => receive e
| connect => on_connect env
| disconnect => on_disconnect
| reconnect => on_reconnect env
| delete confirmed uid ts id => deleteListing env confirmed uid ts id
| create admin uid ts x => createListing env admin uid ts x
end.

(** Steps run one after the other; an exception ends its step only. *)
Definition session (env : Env) (steps : list Step) (s : State) : State :=
foldl (fun s st => JS.exec (step env st) s) s steps.

End Ui.

(** ** The image gallery of the details modal: script.js *)

Module Gallery.

Record State : Type := mkState {
currentGallery : list string;
currentIndex : nat;
modalImage : option string       (* modalImage.src; [None]: undefined *)
}.

(** A string in a condition. *)
Definition truthy_string (s : string) : bool := negb (String.eqb s EmptyString).

(** [a || b] on values that may be undefined or empty strings. *)
Definition or_else (a : option string) (b : option string) : option string :=
match a with
| Some s => if truthy_string s then Some s else b
| None => b
end.

(** [openDetailsModal] for a listing that was found, with its [gallery]
  ([None]: not set) and [mainImage], followed by the first statement of
  [renderDetailsContent]. *)
Definition openDetailsModal (gallery : option (list string)) (mainImage : option string)
: State :=
let g :=
  match gallery with
  | Some (x :: xs) => x :: xs                       (* gallery.slice() *)
  | _ =>
      match mainImage with
      | Some m => if truthy_string m then [m] else []
      | None => []
      end
  end in
mkState g 0 (or_else (or_else (g !! 0) mainImage) (Some EmptyString)).

(** The listener of [.modal-next], also ArrowRight. *)
Definition next (st : State) : State :=
match currentGallery st with
| [] => st
| _ :: _ =>
    let i := (currentIndex st + 1) mod length (currentGallery st) in
    mkState (currentGallery st) i (currentGallery st !! i)
end.

(** The listener of [.modal-prev], also ArrowLeft:
  [(currentIndex - 1 + length) % length]. *)
Definition prev (st : State) : State :=
match currentGallery st with
| [] => st
| _ :: _ =>
    let i := (currentIndex st + length (currentGallery st) - 1)
               mod length (currentGallery st) in
    mkState (currentGallery st) i (currentGallery st !! i)
end.

(** The click listener of the i-th thumbnail; there is one thumbnail per
  element of the gallery. *)
Definition thumb (i : nat) (st : State) : State :=
match currentGallery st !! i with
| Some src => mkState (currentGallery st) i (Some src)
| None => st
end.

Inductive Op : Type := Next | Prev | Thumb (i : nat).

Definition apply (st : State) (o : Op) : State :=
match o with
| Next => next st
| Prev => prev st
| Thumb i => thumb i st
end.

End Gallery.

(** ** Multi-line fields of the edit form: script.js *)

Module Form.

(** A JavaScript string: its UTF-16 code units. *)
Definition JsString : Type := list N.

Definition LF : N := 10%N.

(** The code units [String.prototype.trim] removes: WhiteSpace and
  LineTerminator of ECMAScript. *)
Definition isWhiteSpace (c : N) : bool :=
(N.eqb c 9 || N.eqb c 10 || N.eqb c 11 || N.eqb c 12 || N.eqb c 13
 || N.eqb c 32 || N.eqb c 160 || N.eqb c 5760
 || (N.leb 8192 c && N.leb c 8202)
 || N.eqb c 8232 || N.eqb c 8233 || N.eqb c 8239 || N.eqb c 8287
 || N.eqb c 12288 || N.eqb c 65279)%N.

(** [s.split('\n')] *)
Fixpoint split_lines (s : JsString) : list JsString :=
match s with
| [] => [[]]
| c :: s' =>
    if N.eqb c LF then [] :: split_lines s'
    else
      match split_lines s' with
      | l :: ls => (c :: l) :: ls
      | [] => [[c]]
      end
end.

Fixpoint dropWhile (p : N -> bool) (s : JsString) : JsString :=
match s with
| [] => []
| c :: s' => if p c then dropWhile p s' else s
end.

(** [s.trim()] *)
Definition trim (s : JsString) : JsString :=
reverse (dropWhile isWhiteSpace (reverse (dropWhile isWhiteSpace s))).

(** [Boolean(s)] for a string. *)
Definition nonEmpty (s : JsString) : bool :=
match s with [] => false | _ :: _ => true end.

(** [text.split('\n').map(s => s.trim()).filter(Boolean)]: how the submit
  handler reads the amenities and locations fields, and
  [promptEditPricingUnit] the items of a unit. *)
Definition parseLines (text : JsString) : list JsString :=
List.filter nonEmpty (trim <$> split_lines text).

(** [lines.join('\n')]: how [openEditModal] fills the same fields. *)
Fixpoint join_lines (lines : list JsString) : JsString :=
match lines with
| [] => []
| [l] => l
| l :: ls => l ++ LF :: join_lines ls
end.

End Form.
(** * Vocabulary of the properties *)

(** The ids of a replica, in order. *)
Definition ids (ls : list Listing) : list JsId := l_id <$> ls.

(** The invariant of a replica: no two entries with the same id. *)
Definition unique_ids (ls : list Listing) : Prop := NoDup (ids ls).

(** Whether the cache update of a save or delete issued in state [s] takes
    place: always with the local file, only when the call succeeds with the
    cloud store. *)
Definition saved (env : Server.Env) (s : Server.State) : bool :=
  Server.local_mode env || Server.write_ok env (length (Server.backend s)).

(** No save can leave the cache behind. *)
Definition no_failure (env : Server.Env) : Prop :=
  Server.local_mode env = true \/ forall n, Server.write_ok env n = true.

(** The value carried by the last [users-count] broadcast. *)
Definition users_count_of (te : Server.Target * Server.Event) : option nat :=
  match te with
  | (Server.ToAll, Server.users_count n) => Some n
  | _ => None
  end.

Definition last_users_count (out : list (Server.Target * Server.Event)) : option nat :=
  last (omap users_count_of out).

(** Channel life cycle as the transport guarantees it: a socket id is
    connected only while it is not open, disconnected only while open.
    Other events do not open or close channels. *)
Fixpoint lifecycle (open : gset string) (tr : list (string * Server.Inbound)) : Prop :=
  match tr with
  | [] => True
  | (sid, Server.connection) :: tr' => (sid ∉ open) /\ lifecycle ({[sid]} ∪ open) tr'
  | (sid, Server.disconnect) :: tr' => (sid ∈ open) /\ lifecycle (open ∖ {[sid]}) tr'
  | _ :: tr' => lifecycle open tr'
  end.

Definition is_connect (e : string * Server.Inbound) : bool :=
  match snd e with Server.connection => true | _ => false end.

Definition is_disconnect (e : string * Server.Inbound) : bool :=
  match snd e with Server.disconnect => true | _ => false end.

Definition connects (tr : list (string * Server.Inbound)) : nat :=
  length (List.filter is_connect tr).

Definition disconnects (tr : list (string * Server.Inbound)) : nat :=
  length (List.filter is_disconnect tr).

(** The trace contains a connect or a disconnect. *)
Definition has_presence_event (tr : list (string * Server.Inbound)) : Prop :=
  exists e, e ∈ tr /\ (is_connect e = true \/ is_disconnect e = true).

(** The broadcast of an accepted mutation. *)
Definition broadcast (act : string) (p : Payload) (i : JsId)
  : Server.Target * Server.Event :=
  (Server.ToAll, Server.update_listings (mkUpdateMsg act p i)).

(** *** Sample data *)

Definition x1 : Listing := mkListing (Some "x1") "Foo" "3 beds".
Definition x1_old : Listing := mkListing (Some "x1") "Foo (old copy)" "2 beds".
Definition x2 : Listing := mkListing (Some "x2") "Bar" "1 bed".
Definition x2_stale : Listing := mkListing (Some "x2") "Bar (stale)" "1 bed".
Definition no_id : Listing := mkListing None "Untitled" "draft".

(** Local file backend, every write succeeds. *)
Definition local_env : Server.Env := Server.mkEnv false false (fun _ => true).

(** Local file backend, the disk is full. *)
Definition local_disk_full : Server.Env := Server.mkEnv false false (fun _ => false).

(** Cloud backend, the store is unreachable. *)
Definition cloud_down : Server.Env := Server.mkEnv true true (fun _ => false).

(** The message [saveListing] logs when its backend call fails. *)
Definition save_error (env : Server.Env) : string :=
  if Server.local_mode env then "Failed to save listings:"
  else "Failed to save listing to Firebase:".



(** What a socket receives of an emitted event. *)
Definition delivered_to (sid : string) (te : Server.Target * Server.Event)
  : option Server.Event :=
  match te with
  | (Server.ToAll, e) => Some e
  | (Server.ToSocket sid', e) => if String.eqb sid' sid then Some e else None
  end.

(** A client applying a sequence of events from the server, in order. *)
Definition client_applies (evs : list Server.Event) (c : Client.State) : Client.State :=
  foldl (fun c e => JS.exec (Client.receive e) c) c evs.


(** Presence events of one socket. *)
Definition presence_of (sid : string) (e : string * Server.Inbound) : bool :=
  String.eqb (fst e) sid && (is_connect e || is_disconnect e).

(** A channel is open after a trace when the last presence event of its
    socket is a connect. *)
Definition is_open (sid : string) (tr : list (string * Server.Inbound)) : bool :=
  match last (List.filter (presence_of sid) tr) with
  | Some e => is_connect e
  | None => false
  end.

(** *** Offline queue *)

(** The actions for which [processUpdateQueue] calls [socket.emit]. *)
Definition known_action (a : string) : bool :=
  String.eqb a "listing-added" || String.eqb a "listing-updated"
  || String.eqb a "listing-deleted".

(** The calls of [socket.emit] one pass over the snapshot [q] makes, when
    [n] calls were made before it: one per element with a known action, in
    order of the queue. *)
Fixpoint attempts_of (env : Client.Env) (n : nat) (q : list (nat * Client.Update))
  : list (string * Client.Arg * bool) :=
  match q with
  | [] => []
  | u :: q' =>
      if known_action (Client.u_action (snd u)) then
        (Client.u_action (snd u), Client.u_data (snd u), Client.emit_ok env n)
          :: attempts_of env (S n) q'
      else attempts_of env n q'
  end.

(** The elements of the snapshot whose call of [socket.emit] raised. *)
Fixpoint kept_of (env : Client.Env) (n : nat) (q : list (nat * Client.Update))
  : list (nat * Client.Update) :=
  match q with
  | [] => []
  | u :: q' =>
      if known_action (Client.u_action (snd u)) then
        if Client.emit_ok env n then kept_of env (S n) q'
        else u :: kept_of env (S n) q'
      else kept_of env n q'
  end.

(** Everything but the queue, the log of emits and the console is the same. *)
Definition same_page (s s' : Client.State) : Prop :=
  Client.isConnected s' = Client.isConnected s
  /\ Client.isSyncing s' = Client.isSyncing s
  /\ Client.listings s' = Client.listings s
  /\ Client.next_ref s' = Client.next_ref s
  /\ Client.stored_queue s' = Client.stored_queue s
  /\ Client.stored_listings s' = Client.stored_listings s
  /\ Client.notifications s' = Client.notifications s.

(** The intent as it goes on the wire. *)
Definition wire (u : Client.Update) : string * Client.Arg :=
  (Client.u_action u, Client.u_data u).

(** [queueUpdate] called once for each element of [us], in order. *)
Definition enqueue_all (us : list Client.Update) (s : Client.State) : Client.State :=
  foldl (fun s u =>
           JS.exec (Client.queueUpdate (Client.u_id u) (Client.u_timestamp u)
                      (Client.u_action u) (Client.u_data u)) s)
        s us.

(** The connect handler read as drain first, reconciliation request last. *)
Definition drains_before_sync (env : Client.Env) (s : Client.State) : Prop :=
  exists pre ok,
    Client.emits (JS.exec (Client.on_connect env) s)
    = Client.emits s ++ pre ++ [("sync-listings", Client.AListings (Client.listings s), ok)]
    /\ fst <$> pre = wire <$> (snd <$> Client.updateQueue s).

(** Every call of [socket.emit] returns. *)
Definition all_sent : Client.Env := Client.mkEnv (fun _ => true).

(** The second call of [socket.emit] raises, the others return. *)
Definition second_fails : Client.Env := Client.mkEnv (fun n => negb (Nat.eqb n 1)).

Definition add_x1 : Client.Update :=
  Client.mkUpdate 1001 "listing-added" (Client.AListing (Some x1)) 1000.

Definition delete_x2 : Client.Update :=
  Client.mkUpdate 2001 "listing-deleted" (Client.AId (Some "x2")) 2000.

(** Outcomes of the [len] calls of [socket.emit] that follow the first [n]. *)
Definition outcomes (env : Client.Env) (n len : nat) : list bool :=
  Client.emit_ok env <$> seq n len.

(** An attempt: the intent as sent, and whether the call returned. *)
Definition attempt (u : Client.Update) (ok : bool) : string * Client.Arg * bool :=
  (Client.u_action u, Client.u_data u, ok).

(** The intents whose attempt raised. *)
Definition failed (us : list Client.Update) (oks : list bool) : list Client.Update :=
  fst <$> List.filter (fun uo => negb (snd uo)) (zip us oks).

(** * Further vocabulary *)

(** The events a handler added to the outbox. *)
Definition new_events (s s' : Server.State) : list (Server.Target * Server.Event) :=
  drop (length (Server.outbox s)) (Server.outbox s').

(** Lookup by id, as [listings.find(l => l.id === i)]. *)
Definition lookup_id (i : JsId) (ls : list Listing) : option Listing :=
  JS.find (fun l => id_eqb (l_id l) i) ls.



(** The data file after the backend calls of a log, oldest first. A call
    of [writeFileSync] that succeeds replaces the content; one that fails
    is taken to leave the file as it was. The file holds the JSON text of
    the replica, and parsing it gives the replica back. *)
Definition disk_step (f : Startup.DataFile) (c : Server.WriteOp * bool)
  : Startup.DataFile :=
  match c with
  | (Server.WriteFile ls, true) => Startup.Content ls
  | _ => f
  end.

Definition disk (f : Startup.DataFile) (log : list (Server.WriteOp * bool))
  : Startup.DataFile :=
  foldl disk_step f log.

(** The replica a restart of the server would load from the data file. *)
Definition reloaded (f : Startup.DataFile) : list Listing :=
  Server.listings (JS.exec (Startup.loadListingsLocal f) Server.init).

(** Storage holds the queue as it is in memory. *)
Definition storage_in_sync (s : Client.State) : Prop :=
  default [] (Client.stored_queue s) = snd <$> Client.updateQueue s.

(** The intent [queueUpdate] builds. *)
Definition intent (uid ts : nat) (act : string) (data : Client.Arg) : Client.Update :=
  Client.mkUpdate uid act data ts.

(** What the server receives of a call of [socket.emit] on a client: the
    event of that name with that argument, if the call returned. The
    replica travels as a JSON array, none of its entries null. *)
Definition to_inbound (e : string * Client.Arg * bool) : option Server.Inbound :=
  let '(event, arg, ok) := e in
  if negb ok then None
  else
    match arg with
    | Client.AListings ls =>
        if String.eqb event "sync-listings"
        then Some (Server.sync_listings (Some (Some <$> ls))) else None
    | Client.AListing p =>
        if String.eqb event "listing-added" then Some (Server.listing_added p)
        else if String.eqb event "listing-updated" then Some (Server.listing_updated p)
        else None
    | Client.AId i =>
        if String.eqb event "listing-deleted" then Some (Server.listing_deleted i)
        else None
    end.

(** The events a socket delivers to the server for the emits of its client. *)
Definition delivered_by (sid : string) (es : list (string * Client.Arg * bool))
  : list (string * Server.Inbound) :=
  (fun ev => (sid, ev)) <$> omap to_inbound es.

(** A line as the form produces them: not empty, without a line feed,
    without white space at either end. *)
Definition clean_line (l : Form.JsString) : Prop :=
  l <> [] /\ (Form.LF ∉ l)
  /\ (forall c, head l = Some c -> Form.isWhiteSpace c = false)
  /\ (forall c, last l = Some c -> Form.isWhiteSpace c = false).

(** The gallery state after a series of clicks and key presses. *)
Definition browse (st : Gallery.State) (ops : list Gallery.Op) : Gallery.State :=
  foldl Gallery.apply st ops.

(** What holds of the gallery between two events: the index points into
    the gallery (or both are at their initial values) and the image source
    is defined. *)
Definition in_range (st : Gallery.State) : Prop :=
  (Gallery.currentIndex st < length (Gallery.currentGallery st)
   \/ (Gallery.currentGallery st = [] /\ Gallery.currentIndex st = 0))
  /\ is_Some (Gallery.modalImage st).
(** * Properties *)

(** ** Array helpers *)

Section ArrayFacts.

Context {A : Type}.
Implicit Types (p : A -> bool) (l : list A).

Lemma findIndex_None p l :
  JS.findIndex p l = None <-> forall x, x ∈ l -> p x = false.
Proof.
  induction l as [|y l IH]; simpl.
  - split; [intros _ x Hx; inversion Hx | done].
  - destruct (p y) eqn:Hy.
    + split; [done|]. intros H. specialize (H y (list_elem_of_here _ _)). congruence.
    + destruct (JS.findIndex p l) eqn:Hf; simpl.
      * split; [done|]. intros H.
        assert (Hn : Some n = None); [|done].
        apply IH. intros x Hx. apply H. by constructor.
      * split; [|done]. intros _ x Hx.
        apply elem_of_cons in Hx as [->|Hx]; [done|]. by apply IH.
Qed.

Lemma findIndex_Some p l i :
  JS.findIndex p l = Some i -> exists x, l !! i = Some x /\ p x = true.
Proof.
  revert i. induction l as [|y l IH]; intros i; simpl; [done|].
  destruct (p y) eqn:Hy.
  - intros [= <-]. by exists y.
  - destruct (JS.findIndex p l) as [j|]; simpl; [|done].
    intros [= <-]. by apply IH.
Qed.

Lemma find_None p l :
  JS.find p l = None <-> JS.findIndex p l = None.
Proof.
  induction l as [|y l IH]; simpl; [done|].
  destruct (p y); [done|].
  rewrite IH. destruct (JS.findIndex p l); simpl; split; done.
Qed.

End ArrayFacts.

(** ** Replicas: one entry per id *)

Lemma id_eqb_true a b : id_eqb a b = true <-> a = b.
Proof. unfold id_eqb. by rewrite bool_decide_eq_true. Qed.

Lemma id_eqb_false a b : id_eqb a b = false <-> a <> b.
Proof. unfold id_eqb. by rewrite bool_decide_eq_false. Qed.

Lemma findIndex_id_None i ls :
  JS.findIndex (fun l => id_eqb (l_id l) i) ls = None <-> i ∉ ids ls.
Proof.
  rewrite findIndex_None. unfold ids. rewrite list_elem_of_fmap. split.
  - intros H (x & -> & Hx). specialize (H x Hx). by apply id_eqb_false in H.
  - intros H x Hx. apply id_eqb_false. intros <-. apply H. by exists x.
Qed.

Lemma upsert_absent x ls : l_id x ∉ ids ls -> upsert x ls = x :: ls.
Proof. intros H. unfold upsert. apply findIndex_id_None in H. by rewrite H. Qed.

Lemma upsert_present x ls :
  l_id x ∈ ids ls ->
  exists idx y, ls !! idx = Some y /\ l_id y = l_id x /\ upsert x ls = <[idx := x]> ls.
Proof.
  intros H. unfold upsert.
  destruct (JS.findIndex _ ls) as [idx|] eqn:Hf.
  - apply findIndex_Some in Hf as (y & Hy & Hp). apply id_eqb_true in Hp. by exists idx, y.
  - apply findIndex_id_None in Hf. done.
Qed.

Lemma ids_upsert_present x ls : l_id x ∈ ids ls -> ids (upsert x ls) = ids ls.
Proof.
  intros H. destruct (upsert_present x ls H) as (idx & y & Hy & Hid & ->).
  unfold ids. rewrite list_fmap_insert. apply list_insert_id.
  by rewrite list_lookup_fmap, Hy; simpl; rewrite Hid.
Qed.

Lemma unique_ids_upsert x ls : unique_ids ls -> unique_ids (upsert x ls).
Proof.
  unfold unique_ids. intros Hnd.
  destruct (decide (l_id x ∈ ids ls)) as [Hin|Hin].
  - by rewrite ids_upsert_present.
  - rewrite upsert_absent by done. simpl. by constructor.
Qed.

Lemma remove_id_absent i ls : i ∉ ids ls -> remove_id i ls = ls.
Proof.
  unfold remove_id, ids. induction ls as [|y ls IH]; simpl; [done|].
  intros H. apply not_elem_of_cons in H as [Hne Hni].
  assert (Hb : id_eqb (l_id y) i = false) by (apply id_eqb_false; congruence).
  rewrite Hb. simpl. f_equal. by apply IH.
Qed.

Lemma elem_of_remove_id i ls x :
  x ∈ remove_id i ls <-> x ∈ ls /\ l_id x <> i.
Proof.
  unfold remove_id. rewrite !list_elem_of_In, filter_In.
  rewrite negb_true_iff, id_eqb_false. done.
Qed.

Lemma removed_id_gone i ls : i ∉ ids (remove_id i ls).
Proof.
  unfold ids. rewrite list_elem_of_fmap. intros (x & -> & Hx).
  apply elem_of_remove_id in Hx as [_ Hne]. done.
Qed.


(** ** Server: effect of each handler *)

Ltac js_unfold :=
  unfold JS.exec, JS.threw, JS.try_catch, JS.when, JS.bind, JS.modify,
    JS.gets, JS.get, JS.throw, JS.ret in *.

Section ServerRuns.

Import Server.
Variable env : Env.

Lemma saveListing_run x s :
  exists s', saveListing env x s = (JS.Normal tt, s')
    /\ listings s' = (if saved env s then upsert x (listings s) else listings s)
    /\ clients s' = clients s
    /\ outbox s' = outbox s
    /\ length (backend s') = S (length (backend s))
    /\ errors s' =
         errors s ++
         (if write_ok env (length (backend s)) then []
          else if local_mode env then ["Failed to save listings:"]
               else ["Failed to save listing to Firebase:"]).
Proof.
  unfold saved, saveListing, saveListingsLocal, await_persist, persist, console_error.
  js_unfold.
  destruct (local_mode env); simpl;
    destruct (write_ok env (length (backend s))) eqn:E; simpl; rewrite ?E; simpl;
    eexists; (split; [reflexivity|]); simpl;
    rewrite ?length_app, ?app_nil_r; simpl; repeat split; lia.
Qed.

Lemma deleteListing_run i s :
  exists s', deleteListing env i s = (JS.Normal tt, s')
    /\ listings s' = (if saved env s then remove_id i (listings s) else listings s)
    /\ clients s' = clients s
    /\ outbox s' = outbox s.
Proof.
  unfold saved, deleteListing, saveListingsLocal, await_persist, persist, console_error.
  js_unfold.
  destruct (local_mode env); simpl;
    destruct (write_ok env (length (backend s))) eqn:E; simpl; rewrite ?E; simpl;
    eexists; (split; [reflexivity|]); simpl; done.
Qed.

Lemma on_connection_run sid s :
  on_connection sid s =
    (JS.Normal tt,
     mkState (listings s) ({[sid]} ∪ clients s) (backend s)
       (outbox s ++ [(ToAll, users_count (size ({[sid]} ∪ clients s)));
                     (ToSocket sid, sync_all_listings (listings s))])
       (errors s)).
Proof.
  unfold on_connection, emit, set_clients. js_unfold. simpl.
  by rewrite <- app_assoc.
Qed.

Lemma on_disconnect_run sid s :
  on_disconnect sid s =
    (JS.Normal tt,
     mkState (listings s) (clients s ∖ {[sid]}) (backend s)
       (outbox s ++ [(ToAll, users_count (size (clients s ∖ {[sid]})))])
       (errors s)).
Proof. unfold on_disconnect, emit, set_clients. js_unfold. done. Qed.

Lemma on_listing_added_null s :
  on_listing_added env None s =
    (JS.Throw "TypeError: Cannot read properties of null (reading 'title')", s).
Proof. unfold on_listing_added, get_title. js_unfold. done. Qed.

Lemma on_listing_updated_null s :
  on_listing_updated env None s =
    (JS.Throw "TypeError: Cannot read properties of null (reading 'id')", s).
Proof. unfold on_listing_updated, get_id. js_unfold. done. Qed.

Lemma on_listing_added_run x s :
  exists s', on_listing_added env (Some x) s = (JS.Normal tt, s')
    /\ listings s' =
         (if truthy (l_id x) && saved env s then upsert x (listings s) else listings s)
    /\ clients s' = clients s
    /\ outbox s' = outbox s ++ [broadcast "added" (Some x) None]
    /\ length (backend s') =
         (if truthy (l_id x) then S (length (backend s)) else length (backend s))
    /\ errors s' =
         errors s ++
         (if truthy (l_id x) && negb (write_ok env (length (backend s)))
          then [save_error env] else []).
Proof.
  unfold on_listing_added, get_title, emit, broadcast. js_unfold.
  destruct (truthy (l_id x)); simpl.
  - destruct (saveListing_run x s) as (s' & -> & Hl & Hc & Ho & Hb & He).
    eexists; split; [reflexivity|]; simpl. rewrite Ho, He.
    split_and!; try done. unfold save_error.
    by destruct (write_ok env (length (backend s))), (local_mode env).
  - eexists; split; [reflexivity|]; simpl. by rewrite app_nil_r.
Qed.

Lemma on_listing_updated_run x s :
  exists s', on_listing_updated env (Some x) s = (JS.Normal tt, s')
    /\ listings s' = (if saved env s then upsert x (listings s) else listings s)
    /\ clients s' = clients s
    /\ outbox s' = outbox s ++ [broadcast "updated" (Some x) None]
    /\ errors s' =
         errors s ++
         (if write_ok env (length (backend s)) then [] else [save_error env]).
Proof.
  unfold on_listing_updated, get_id, emit, broadcast. js_unfold.
  destruct (saveListing_run x s) as (s' & -> & Hl & Hc & Ho & _ & He).
  eexists; split; [reflexivity|]; simpl. rewrite Ho, He.
  split_and!; try done. unfold save_error.
  by destruct (write_ok env (length (backend s))), (local_mode env).
Qed.

Lemma on_listing_deleted_run i s :
  exists s', on_listing_deleted env i s = (JS.Normal tt, s')
    /\ listings s' = (if saved env s then remove_id i (listings s) else listings s)
    /\ clients s' = clients s
    /\ outbox s' = outbox s ++ [broadcast "deleted" None i].
Proof.
  unfold on_listing_deleted, emit, broadcast. js_unfold.
  destruct (deleteListing_run i s) as (s' & -> & Hl & Hc & Ho).
  eexists; split; [reflexivity|]; simpl. by rewrite Ho.
Qed.

End ServerRuns.

(** ** Reconciliation: the loop of [sync-listings] *)

Lemma findIndex_app {A} (p : A -> bool) (l1 l2 : list A) :
  JS.findIndex p (l1 ++ l2) =
    match JS.findIndex p l1 with
    | Some i => Some i
    | None => (fun j => length l1 + j) <$> JS.findIndex p l2
    end.
Proof.
  induction l1 as [|y l1 IH]; simpl.
  - by destruct (JS.findIndex p l2).
  - destruct (p y); [done|]. rewrite IH.
    destruct (JS.findIndex p l1); simpl; [done|].
    by destruct (JS.findIndex p l2).
Qed.

Lemma upsert_app x (P A : list Listing) :
  l_id x ∉ ids A -> upsert x (P ++ A) = upsert x P ++ A.
Proof.
  intros HA. unfold upsert. rewrite findIndex_app.
  destruct (JS.findIndex _ P) as [i|] eqn:HP.
  - apply findIndex_Some in HP as (y & Hy & _).
    apply insert_app_l. by eapply lookup_lt_Some.
  - apply findIndex_id_None in HA. by rewrite HA.
Qed.

Lemma elem_of_upsert x y (P : list Listing) :
  y ∈ upsert x P -> y = x \/ y ∈ P.
Proof.
  destruct (decide (l_id x ∈ ids P)) as [Hin|Hin].
  - destruct (upsert_present x P Hin) as (idx & z & Hz & _ & ->).
    intros Hy. apply list_elem_of_lookup in Hy as (j & Hj).
    apply list_lookup_insert_Some in Hj as [(-> & -> & _)|(_ & Hj)]; [by left|].
    right. by eapply list_elem_of_lookup_2.
  - rewrite upsert_absent by done. intros Hy.
    apply elem_of_cons in Hy as [->|Hy]; [by left|by right].
Qed.

Lemma elem_of_ids_upsert x i (P : list Listing) :
  i ∈ ids (upsert x P) <-> i = l_id x \/ i ∈ ids P.
Proof.
  destruct (decide (l_id x ∈ ids P)) as [Hin|Hin].
  - rewrite ids_upsert_present by done. split; [by right|]. by intros [->|].
  - rewrite upsert_absent by done. unfold ids. simpl. by rewrite elem_of_cons.
Qed.

Lemma no_failure_saved env s : no_failure env -> saved env s = true.
Proof.
  unfold saved. intros [->|H]; [done|]. rewrite H. by rewrite orb_true_r.
Qed.

Section Merge.

Import Server.
Variable env : Env.
Variable A : list Listing.

(** The loop [for (const listing of toAdd) await saveListing(listing)],
    started with the new entries [P] in front of the old replica [A]. *)
Lemma for_of_saveListing adds : forall s P,
  listings s = P ++ A ->
  (forall x, x ∈ adds -> l_id x ∉ ids A) ->
  NoDup (ids P) ->
  exists s' P',
    JS.for_of adds (saveListing env) s = (JS.Normal tt, s')
    /\ listings s' = P' ++ A
    /\ (forall x, x ∈ P' -> x ∈ P \/ x ∈ adds)
    /\ NoDup (ids P')
    /\ clients s' = clients s
    /\ outbox s' = outbox s
    /\ length (backend s') = length (backend s) + length adds
    /\ (no_failure env -> forall i, i ∈ ids P' <-> i ∈ ids P \/ i ∈ ids adds)
    /\ (no_failure env -> NoDup (ids adds) ->
        (forall x, x ∈ adds -> l_id x ∉ ids P) -> P' = reverse adds ++ P).
Proof.
  induction adds as [|x adds IH]; intros s P Hs HA HP.
  - exists s, P. simpl. js_unfold. split_and!; try done; try lia.
    + by left.
    + intros _ i. change (ids []) with (@nil JsId). rewrite elem_of_nil. tauto.
  - destruct (saveListing_run env x s) as (s1 & Hrun & Hl & Hc & Ho & Hb & _).
    assert (HxA : l_id x ∉ ids A) by (apply HA; by left).
    set (P1 := if saved env s then upsert x P else P).
    assert (Hs1 : listings s1 = P1 ++ A).
    { rewrite Hl, Hs. unfold P1. destruct (saved env s); [|done]. by apply upsert_app. }
    assert (HP1 : NoDup (ids P1)).
    { unfold P1. destruct (saved env s); [|done]. by apply unique_ids_upsert. }
    destruct (IH s1 P1 Hs1) as (s' & P' & Hfor & Hl' & Hsub & Hnd & Hc' & Ho' & Hb' & Hcov & Hrev);
      [intros y Hy; apply HA; by right | done |].
    exists s', P'. simpl. unfold JS.bind. rewrite Hrun, Hfor.
    split_and!; try done.
    + intros y Hy. apply Hsub in Hy as [Hy|Hy]; [|right; by right].
      unfold P1 in Hy. destruct (saved env s); [|by left].
      apply elem_of_upsert in Hy as [->|Hy]; [right; by left|by left].
    + congruence.
    + congruence.
    + rewrite Hb', Hb. lia.
    + intros Hnf i. rewrite (Hcov Hnf). unfold P1. rewrite (no_failure_saved _ _ Hnf).
      rewrite elem_of_ids_upsert. change (ids (x :: adds)) with (l_id x :: ids adds).
      rewrite elem_of_cons. tauto.
    + intros Hnf Hndx Hfresh.
      assert (HxP : l_id x ∉ ids P) by (apply Hfresh; by left).
      unfold ids in Hndx. simpl in Hndx. apply NoDup_cons in Hndx as [Hx Hndx].
      assert (HP1' : P1 = x :: P).
      { unfold P1. rewrite (no_failure_saved _ _ Hnf). by apply upsert_absent. }
      rewrite (Hrev Hnf Hndx).
      * rewrite HP1', reverse_cons, <- app_assoc. done.
      * intros y Hy. rewrite HP1'. unfold ids. simpl. rewrite not_elem_of_cons. split.
        -- intros Heq. apply Hx. rewrite <- Heq. by apply list_elem_of_fmap_2.
        -- apply Hfresh. by right.
Qed.

End Merge.

Lemma elem_of_toAdd ls cl x :
  x ∈ Server.toAdd ls cl <->
  Some x ∈ cl /\ truthy (l_id x) = true /\ l_id x ∉ ids ls.
Proof.
  unfold Server.toAdd. rewrite list_elem_of_omap. split.
  - intros (c & Hc & Hk). destruct c as [l|]; simpl in Hk; [|done].
    destruct (truthy (l_id l)) eqn:Ht; simpl in Hk; [|done].
    destruct (bool_decide (l_id l ∈ l_id <$> ls)) eqn:Hd; simpl in Hk; [done|].
    injection Hk as ->. apply bool_decide_eq_false in Hd. done.
  - intros (Hc & Ht & Hn). exists (Some x). split; [done|]. simpl. rewrite Ht. simpl.
    assert (Hd : bool_decide (l_id x ∈ l_id <$> ls) = false) by by apply bool_decide_eq_false.
    by rewrite Hd.
Qed.

Lemma on_sync_listings_unfold env cl s :
  Server.on_sync_listings env cl s =
    (JS.try_catch
       (JS.for_of (Server.toAdd (Server.listings s) (default [] cl)) (Server.saveListing env))
       (fun _ => Server.console_error "Error merging listings:");;
     ls ← JS.gets Server.listings;
     Server.emit Server.ToAll (Server.sync_all_listings ls)) s.
Proof.
  unfold Server.on_sync_listings. destruct cl as [[|c cl]|]; try reflexivity.
  unfold JS.when, JS.try_catch, JS.bind, JS.gets.
  change (negb (Nat.eqb (length (c :: cl)) 0)) with true.
  simpl default. cbv beta iota.
  destruct (Server.toAdd (Server.listings s) (c :: cl)); reflexivity.
Qed.

Lemma on_sync_listings_run env cl s :
  exists s' P,
    Server.on_sync_listings env cl s = (JS.Normal tt, s')
    /\ Server.listings s' = P ++ Server.listings s
    /\ (forall x, x ∈ P -> x ∈ Server.toAdd (Server.listings s) (default [] cl))
    /\ NoDup (ids P)
    /\ Server.clients s' = Server.clients s
    /\ Server.outbox s' =
         Server.outbox s ++ [(Server.ToAll, Server.sync_all_listings (Server.listings s'))]
    /\ (no_failure env ->
        forall i, i ∈ ids P <-> i ∈ ids (Server.toAdd (Server.listings s) (default [] cl)))
    /\ (no_failure env ->
        NoDup (ids (Server.toAdd (Server.listings s) (default [] cl))) ->
        P = reverse (Server.toAdd (Server.listings s) (default [] cl))).
Proof.
  destruct (for_of_saveListing env (Server.listings s)
              (Server.toAdd (Server.listings s) (default [] cl)) s [])
    as (s' & P & Hfor & Hl & Hsub & Hnd & Hc & Ho & _ & Hcov & Hrev).
  { done. }
  { intros x Hx. by apply elem_of_toAdd in Hx as (_ & _ & Hx). }
  { constructor. }
  exists (Server.mkState (Server.listings s') (Server.clients s') (Server.backend s')
            (Server.outbox s' ++ [(Server.ToAll, Server.sync_all_listings (Server.listings s'))])
            (Server.errors s')), P.
  split.
  { rewrite on_sync_listings_unfold. unfold JS.bind at 1, JS.try_catch. rewrite Hfor.
    unfold Server.emit. js_unfold. done. }
  simpl. split_and!; try done.
  - intros x Hx. apply Hsub in Hx as [Hx|Hx]; [inversion Hx|done].
  - by rewrite Ho.
  - intros Hnf i. rewrite (Hcov Hnf). change (ids []) with (@nil JsId).
    rewrite elem_of_nil. tauto.
  - intros Hnf Hndx. rewrite (Hrev Hnf Hndx); [by rewrite app_nil_r|].
    intros x _. unfold ids. simpl. apply not_elem_of_nil.
Qed.

(** ** Presence *)

Lemma last_users_count_snoc_other out te :
  users_count_of te = None -> last_users_count (out ++ [te]) = last_users_count out.
Proof.
  intros H. unfold last_users_count. rewrite omap_app. simpl. rewrite H.
  by rewrite app_nil_r.
Qed.

Lemma last_users_count_snoc out n :
  last_users_count (out ++ [(Server.ToAll, Server.users_count n)]) = Some n.
Proof. unfold last_users_count. rewrite omap_app. simpl. apply last_snoc. Qed.

Lemma run_snoc env tr sid ev s :
  Server.run env (tr ++ [(sid, ev)]) s =
    JS.exec (Server.handle env sid ev) (Server.run env tr s).
Proof. unfold Server.run. by rewrite foldl_app. Qed.

Lemma run_cons env tr sid ev s :
  Server.run env ((sid, ev) :: tr) s =
    Server.run env tr (JS.exec (Server.handle env sid ev) s).
Proof. done. Qed.

(** What one handler does to the presence set and to the last count sent. *)
Lemma handle_presence env sid ev s :
  let s' := JS.exec (Server.handle env sid ev) s in
  Server.clients s' =
    match ev with
    | Server.connection => {[sid]} ∪ Server.clients s
    | Server.disconnect => Server.clients s ∖ {[sid]}
    | _ => Server.clients s
    end
  /\ last_users_count (Server.outbox s') =
       match ev with
       | Server.connection | Server.disconnect => Some (size (Server.clients s'))
       | _ => last_users_count (Server.outbox s)
       end.
Proof.
  intros s'. subst s'. unfold JS.exec.
  destruct ev as [|p|i|p|cl|]; cbn [Server.handle].
  - rewrite on_connection_run. simpl. split; [done|].
    match goal with
    | |- context [?o ++ [?a; ?b]] => change (o ++ [a; b]) with (o ++ [a] ++ [b])
    end.
    rewrite (assoc_L (++)).
    rewrite last_users_count_snoc_other by done. apply last_users_count_snoc.
  - destruct p as [x|].
    + destruct (on_listing_added_run env x s) as (s' & -> & _ & Hc & Ho & _).
      simpl. rewrite Ho. split; [done|]. by apply last_users_count_snoc_other.
    + by rewrite on_listing_added_null.
  - destruct (on_listing_deleted_run env i s) as (s' & -> & _ & Hc & Ho).
    simpl. rewrite Ho. split; [done|]. by apply last_users_count_snoc_other.
  - destruct p as [x|].
    + destruct (on_listing_updated_run env x s) as (s' & -> & _ & Hc & Ho & _).
      simpl. rewrite Ho. split; [done|]. by apply last_users_count_snoc_other.
    + by rewrite on_listing_updated_null.
  - destruct (on_sync_listings_run env cl s) as (s' & P & -> & _ & _ & _ & Hc & Ho & _).
    simpl. rewrite Ho. split; [done|]. by apply last_users_count_snoc_other.
  - rewrite on_disconnect_run. simpl. split; [done|]. apply last_users_count_snoc.
Qed.

Lemma presence_count env tr : forall s,
  lifecycle (Server.clients s) tr ->
  size (Server.clients (Server.run env tr s)) + disconnects tr
  = size (Server.clients s) + connects tr.
Proof.
  induction tr as [|[sid ev] tr IH]; intros s Hlc.
  - unfold connects, disconnects. simpl. lia.
  - rewrite run_cons.
    destruct (handle_presence env sid ev s) as [Hc _].
    set (s1 := JS.exec (Server.handle env sid ev) s) in *.
    unfold connects, disconnects in *. simpl.
    destruct ev; simpl in Hlc |- *; unfold is_connect, is_disconnect; simpl;
      fold is_connect is_disconnect.
    1: { destruct Hlc as [Hfresh Hlc]. rewrite <- Hc in Hlc.
         rewrite (IH s1 Hlc), Hc. rewrite size_union by set_solver.
         rewrite size_singleton. lia. }
    5: { destruct Hlc as [Hopen Hlc]. rewrite <- Hc in Hlc.
         specialize (IH s1 Hlc). rewrite Hc in IH.
         rewrite size_difference in IH by set_solver.
         rewrite size_singleton in IH.
         assert (1 <= size (Server.clients s)).
         { rewrite <- (size_singleton (C := gset string) sid).
           apply subseteq_size. set_solver. }
         lia. }
    all: rewrite <- Hc in Hlc; rewrite (IH s1 Hlc), Hc; done.
Qed.

Lemma presence_last_count env tr s :
  has_presence_event tr ->
  last_users_count (Server.outbox (Server.run env tr s))
  = Some (size (Server.clients (Server.run env tr s))).
Proof.
  induction tr as [|[sid ev] tr IH] using rev_ind; intros (e & He & Hp).
  - inversion He.
  - rewrite run_snoc.
    destruct (handle_presence env sid ev (Server.run env tr s)) as [Hc Ho].
    destruct ev; try done.
    all: rewrite Ho, Hc; apply IH; exists e; split; [|done].
    all: apply elem_of_app in He as [He|He]; [done|].
    all: apply list_elem_of_singleton in He; subst e.
    all: by destruct Hp.
Qed.

Lemma presence_membership env tr sid :
  sid ∈ Server.clients (Server.run env tr Server.init) <-> is_open sid tr = true.
Proof.
  induction tr as [|[sid' ev] tr IH] using rev_ind.
  - unfold is_open. simpl. split; [set_solver|done].
  - rewrite run_snoc.
    destruct (handle_presence env sid' ev (Server.run env tr Server.init)) as [Hc _].
    rewrite Hc. unfold is_open in *. rewrite List.filter_app. simpl.
    unfold presence_of at 2. simpl.
    destruct (String.eqb_spec sid' sid) as [->|Hne].
    + destruct ev; unfold is_connect, is_disconnect; simpl;
        rewrite ?app_nil_r, ?last_snoc; simpl; try done.
      * split; [done|]. intros _. apply elem_of_union_l. by apply elem_of_singleton.
      * split; [|done]. intros H. apply elem_of_difference in H as [_ H].
        exfalso. apply H. by apply elem_of_singleton.
    + simpl. rewrite app_nil_r. rewrite <- IH. clear IH.
      destruct ev; rewrite ?elem_of_union, ?elem_of_difference, ?elem_of_singleton;
        intuition congruence.
Qed.

(** C8: from server start, after a trace of events in which sockets connect
    and disconnect as the transport lets them, the last [users-count]
    broadcast carries the number of open channels: the size of the set of
    sockets whose last presence event is a connect, which is the number of
    connects minus the number of disconnects. *)
Theorem users_count_is_open_channels (env : Server.Env)
    (tr : list (string * Server.Inbound)) :
  lifecycle ∅ tr ->
  has_presence_event tr ->
  let s := Server.run env tr Server.init in
  last_users_count (Server.outbox s) = Some (connects tr - disconnects tr)
  /\ size (Server.clients s) = connects tr - disconnects tr
  /\ forall sid, sid ∈ Server.clients s <-> is_open sid tr = true.
Proof.
  intros Hlc Hp s. subst s.
  pose proof (presence_count env tr Server.init Hlc) as Hn.
  change (Server.clients Server.init) with (∅ : gset string) in Hn.
  rewrite size_empty in Hn.
  rewrite (presence_last_count env tr Server.init Hp).
  split_and!.
  - f_equal. lia.
  - lia.
  - intros sid. apply presence_membership.
Qed.

(** Two sockets connect, a listing is added, the first socket leaves: one
    channel is open and the last count sent is 1. *)
Lemma users_count_is_open_channels_witness :
  last_users_count
    (Server.outbox
       (Server.run local_env
          [("a", Server.connection); ("b", Server.connection);
           ("b", Server.listing_added (Some x1)); ("a", Server.disconnect)]
          Server.init))
  = Some 1.
Proof.
  refine (proj1 (users_count_is_open_channels local_env
          [("a", Server.connection); ("b", Server.connection);
           ("b", Server.listing_added (Some x1)); ("a", Server.disconnect)] _ _)).
  - simpl. split_and!; try done;
      refine (bool_decide_unpack _ _); vm_compute; exact I.
  - exists ("a", Server.connection). split; [by left|by left].
Defined.

(** ** Client: applying broadcasts *)

Section ClientApply.

Import Client.

Lemma find_id_None i ls :
  JS.find (fun l => id_eqb (l_id l) i) ls = None <-> i ∉ ids ls.
Proof. rewrite find_None. apply findIndex_id_None. Qed.

Lemma added_present m x c :
  action m = "added" -> listing m = Some x -> l_id x ∈ ids (listings c) ->
  on_update_listings m c = (JS.Normal tt, c).
Proof.
  intros Ha Hl Hin. unfold on_update_listings. rewrite Ha, Hl. simpl. js_unfold.
  destruct (JS.find _ (listings c)) eqn:Hf; [done|].
  apply find_id_None in Hf. done.
Qed.

Lemma added_absent m x c :
  action m = "added" -> listing m = Some x -> l_id x ∉ ids (listings c) ->
  on_update_listings m c =
    (JS.Normal tt,
     mkState (isConnected c) (updateQueue c) (isSyncing c) (x :: listings c)
       (next_ref c) (stored_queue c) (stored_listings c) (emits c)
       (notifications c ++ [new_listing (l_title x)]) (errors c)).
Proof.
  intros Ha Hl Hin. unfold on_update_listings. rewrite Ha, Hl. simpl. js_unfold.
  apply find_id_None in Hin. rewrite Hin.
  unfold showNotification, set_listings. js_unfold. done.
Qed.

Lemma deleted_run m c :
  action m = "deleted" ->
  on_update_listings m c =
    (JS.Normal tt,
     mkState (isConnected c) (updateQueue c) (isSyncing c)
       (remove_id (listingId m) (listings c))
       (next_ref c) (stored_queue c) (stored_listings c) (emits c)
       (notifications c ++ [listing_removed]) (errors c)).
Proof.
  intros Ha. unfold on_update_listings. rewrite Ha. simpl.
  unfold showNotification, set_listings. js_unfold. done.
Qed.





End ClientApply.

(** ** Server: one entry per id *)




(** ** Client: the offline queue *)

Section Queue.

Import Client.
Variable env : Env.

Lemma same_page_refl s : same_page s s.
Proof. by unfold same_page. Qed.

Lemma same_page_trans s1 s2 s3 : same_page s1 s2 -> same_page s2 s3 -> same_page s1 s3.
Proof. unfold same_page. intuition congruence. Qed.

Lemma indexOf_middle (F R : list (nat * Update)) u :
  NoDup (fst <$> (F ++ u :: R)) -> indexOf u (F ++ u :: R) = Some (length F).
Proof.
  intros Hnd. unfold indexOf. rewrite findIndex_app.
  assert (HF : JS.findIndex (fun v => Nat.eqb (fst v) (fst u)) F = None).
  { apply findIndex_None. intros v Hv. apply Nat.eqb_neq. intros Heq.
    rewrite fmap_app in Hnd. apply NoDup_app in Hnd as (_ & Hdis & _).
    apply (Hdis (fst v)); [by apply list_elem_of_fmap_2|].
    simpl. rewrite Heq. by left. }
  rewrite HF. simpl. rewrite Nat.eqb_refl. simpl. f_equal. lia.
Qed.

(** One turn of the loop of [processUpdateQueue]. *)
Lemma process_one_run u s :
  let n := length (emits s) in
  exists s',
    process_one env u s = (JS.Normal tt, s')
    /\ emits s' = emits s ++ attempts_of env n [u]
    /\ same_page s s'
    /\ updateQueue s' =
         (if known_action (u_action (snd u)) && negb (emit_ok env n)
          then updateQueue s
          else match indexOf u (updateQueue s) with
               | Some i => delete i (updateQueue s)
               | None => updateQueue s
               end).
Proof.
  intros n. subst n.
  unfold process_one, socket_emit, console_error, known_action, set_queue, same_page.
  js_unfold. simpl attempts_of. unfold known_action.
  destruct (String.eqb (u_action (snd u)) "listing-added");
    destruct (String.eqb (u_action (snd u)) "listing-updated");
    destruct (String.eqb (u_action (snd u)) "listing-deleted");
    destruct (emit_ok env (length (emits s))) eqn:Hok; simpl; rewrite ?Hok; simpl;
    try (destruct (indexOf u (updateQueue s)); simpl);
    eexists; (split; [reflexivity|]); simpl; rewrite ?app_nil_r; done.
Qed.

(** The whole loop over the snapshot [R]. The emits do not depend on the
    queue; the queue that is left does, through [indexOf]. *)
Lemma drain_loop R : forall s,
  exists s',
    JS.for_of R (process_one env) s = (JS.Normal tt, s')
    /\ emits s' = emits s ++ attempts_of env (length (emits s)) R
    /\ same_page s s'
    /\ forall F, updateQueue s = F ++ R -> NoDup (fst <$> (F ++ R)) ->
                 updateQueue s' = F ++ kept_of env (length (emits s)) R.
Proof.
  induction R as [|u R IH]; intros s.
  - exists s. simpl. js_unfold. split_and!;
      [done | by rewrite app_nil_r | apply same_page_refl | ].
    intros F HF _. by rewrite HF.
  - destruct (process_one_run u s) as (s1 & Hrun & He & Hp & Hq).
    destruct (IH s1) as (s' & Hfor & He' & Hp' & Hq').
    exists s'. simpl JS.for_of. unfold JS.bind. rewrite Hrun, Hfor.
    split_and!; try done.
    + rewrite He', He. simpl.
      destruct (known_action (u_action (snd u))); simpl.
      * rewrite length_app. simpl. rewrite Nat.add_1_r, <- app_assoc. done.
      * by rewrite app_nil_r.
    + by eapply same_page_trans.
    + intros F HF Hnd. rewrite HF, (indexOf_middle F R u Hnd) in Hq.
      rewrite delete_middle in Hq. simpl kept_of.
      assert (Hlen : length (emits s1)
                     = if known_action (u_action (snd u))
                       then S (length (emits s)) else length (emits s)).
      { rewrite He. simpl. destruct (known_action (u_action (snd u))); simpl.
        - rewrite length_app. simpl. lia.
        - by rewrite app_nil_r. }
      destruct (known_action (u_action (snd u))); simpl in Hq.
      * destruct (emit_ok env (length (emits s))); simpl in Hq.
        -- rewrite (Hq' F), Hlen; [done|done|].
           rewrite fmap_app in *. simpl in Hnd.
           apply NoDup_app in Hnd as (H1 & H2 & H3).
           apply NoDup_cons in H3 as [_ H3]. apply NoDup_app. split_and!; [done| |done].
           intros x Hx Hx'. apply (H2 x Hx). by right.
        -- rewrite (Hq' (F ++ [u])), Hlen, <- ?app_assoc; [done|by rewrite <- app_assoc|].
           by rewrite <- app_assoc.
      * rewrite (Hq' F), Hlen; [done|done|].
        rewrite fmap_app in *. simpl in Hnd.
        apply NoDup_app in Hnd as (H1 & H2 & H3).
        apply NoDup_cons in H3 as [_ H3]. apply NoDup_app. split_and!; [done| |done].
        intros x Hx Hx'. apply (H2 x Hx). by right.
Qed.

(** [processUpdateQueue] on a connected client with no pass in progress. *)
Lemma processUpdateQueue_run s :
  isConnected s = true -> isSyncing s = false ->
  exists s',
    processUpdateQueue env s = (JS.Normal tt, s')
    /\ emits s' = emits s ++ attempts_of env (length (emits s)) (updateQueue s)
    /\ isConnected s' = true /\ isSyncing s' = false
    /\ listings s' = listings s
    /\ (NoDup (fst <$> updateQueue s) ->
        updateQueue s' = kept_of env (length (emits s)) (updateQueue s)
        /\ default [] (stored_queue s') =
             (if Nat.eqb (length (updateQueue s)) 0 then default [] (stored_queue s)
              else snd <$> updateQueue s')).
Proof.
  intros Hc Hs. unfold processUpdateQueue. unfold JS.bind at 1, JS.get.
  rewrite Hc, Hs. simpl.
  destruct (updateQueue s) as [|u q] eqn:Hq.
  - simpl. exists s. js_unfold. split_and!; try done. by rewrite app_nil_r.
  - change (Nat.eqb (length (u :: q)) 0) with false.
    change (false || false) with false. cbv beta iota.
    destruct (drain_loop (u :: q) (set_syncing true s)) as (s1 & Hfor & He & Hp & Hk).
    unfold JS.bind at 1, JS.modify at 1. unfold JS.bind at 1. rewrite Hfor.
    unfold saveUpdateQueue, showNotification, set_syncing. js_unfold. simpl.
    eexists. split; [reflexivity|].
    cbn [emits isConnected isSyncing listings updateQueue stored_queue default snd].
    destruct Hp as (Hp1 & Hp2 & Hp3 & _).
    cbn [set_syncing emits isConnected isSyncing listings updateQueue] in He, Hp1, Hp3, Hk.
    split_and!; [done | by rewrite Hp1 | done | done |].
    intros Hnd. by rewrite (Hk [] Hq Hnd).
Qed.

Lemma processUpdateQueue_syncing s :
  isSyncing s = true -> processUpdateQueue env s = (JS.Normal tt, s).
Proof.
  intros Hs. unfold processUpdateQueue. js_unfold. rewrite Hs.
  by rewrite orb_true_r.
Qed.

(** The connect handler: the reconciliation request goes out first. *)
Lemma on_connect_emits s :
  let n := length (emits s) in
  emits (JS.exec (on_connect env) s) =
    emits s ++
    ("sync-listings", AListings (listings s), emit_ok env n)
      :: (if emit_ok env n && negb (isSyncing s)
          then attempts_of env (S n) (updateQueue s) else []).
Proof.
  intros n. subst n. unfold on_connect, JS.exec.
  unfold JS.bind at 1, JS.modify at 1. unfold JS.bind at 1, JS.gets at 1.
  unfold JS.bind at 1, socket_emit at 1. simpl.
  destruct (emit_ok env (length (emits s))) eqn:Hok; simpl; [|done].
  destruct (isSyncing s) eqn:Hsync; simpl.
  - rewrite processUpdateQueue_syncing by done. done.
  - match goal with |- context [processUpdateQueue env ?s0] =>
      destruct (processUpdateQueue_run s0 eq_refl eq_refl) as (s' & -> & He & _)
    end.
    simpl. rewrite He. simpl. rewrite length_app. simpl.
    rewrite Nat.add_1_r, <- app_assoc. done.
Qed.

End Queue.

Section QueueLife.

Import Client.
Variable env : Env.

Lemma attempts_of_wire q : forall n,
  fst <$> attempts_of env n q
  = wire <$> List.filter (fun u => known_action (u_action u)) (snd <$> q).
Proof.
  induction q as [|u q IH]; intros n; [done|]. simpl.
  destruct (known_action (u_action (snd u))); simpl; by rewrite IH.
Qed.

Lemma attempts_of_known q : forall n,
  Forall (fun u => known_action (u_action u) = true) (snd <$> q) ->
  attempts_of env n q = zip_with attempt (snd <$> q) (outcomes env n (length q)).
Proof.
  induction q as [|u q IH]; intros n Hk; [done|].
  rewrite fmap_cons in Hk. apply Forall_cons in Hk as [Hu Hk].
  simpl. rewrite Hu. unfold outcomes in *. simpl. by rewrite IH.
Qed.

Lemma kept_of_known q : forall n,
  Forall (fun u => known_action (u_action u) = true) (snd <$> q) ->
  snd <$> kept_of env n q = failed (snd <$> q) (outcomes env n (length q)).
Proof.
  induction q as [|u q IH]; intros n Hk; [done|].
  rewrite fmap_cons in Hk. apply Forall_cons in Hk as [Hu Hk].
  simpl. rewrite Hu. unfold failed, outcomes in *. simpl.
  destruct (emit_ok env n); simpl; by rewrite IH.
Qed.


Lemma boot_run defaults sq sl net :
  boot defaults sq sl net =
    mkState false (zip (seq 0 (length (default [] sq))) (default [] sq)) false
      (default defaults sl) (length (default [] sq)) sq sl net [] [].
Proof. done. Qed.

Lemma zip_seq_refs {A} (us : list A) n :
  fst <$> zip (seq n (length us)) us = seq n (length us)
  /\ snd <$> zip (seq n (length us)) us = us.
Proof.
  split; [apply fst_zip|apply snd_zip]; rewrite length_seq; lia.
Qed.

Lemma queueUpdate_run uid ts act data s :
  queueUpdate uid ts act data s =
    (JS.Normal tt,
     mkState (isConnected s) (updateQueue s ++ [(next_ref s, mkUpdate uid act data ts)])
       (isSyncing s) (listings s) (S (next_ref s))
       (Some (snd <$> (updateQueue s ++ [(next_ref s, mkUpdate uid act data ts)])))
       (stored_listings s) (emits s) (notifications s) (errors s)).
Proof. done. Qed.



End QueueLife.

(** ** Reconciliation (sync-listings) *)




(** ** Persistence failures *)




(** ** Malformed [listing-added] payloads *)

(** C9: for a null payload the handler raises on [listing.title] in its
    first statement, before the guard and before the broadcast: nothing is
    persisted, the replica is unchanged and no event is emitted. For an
    object without an id the guard skips the save, the replica is unchanged
    and the payload is broadcast as it came. *)
Theorem listing_added_malformed (env : Server.Env) (s : Server.State) :
  Server.on_listing_added env None s =
    (JS.Throw "TypeError: Cannot read properties of null (reading 'title')", s)
  /\ forall title details,
       let p := Some (mkListing None title details) in
       Server.on_listing_added env p s =
         (JS.Normal tt,
          Server.mkState (Server.listings s) (Server.clients s) (Server.backend s)
            (Server.outbox s ++ [broadcast "added" p None]) (Server.errors s)).
Proof.
  split; [apply on_listing_added_null|].
  intros title details p. subst p.
  unfold Server.on_listing_added, get_title, Server.emit, broadcast. js_unfold. done.
Qed.

(** ** First push on connection *)

(** C10: the connection handler, before any message of the new client is
    handled, emits exactly two events: the [users-count] broadcast and a
    [sync-all-listings] addressed to the new socket alone, carrying the
    whole authoritative replica, which it leaves unchanged. A client that
    applies this push holds the authoritative replica. *)
Theorem connection_pushes_replica (sid : string) (s : Server.State) (c : Client.State) :
  let s' := JS.exec (Server.on_connection sid) s in
  JS.threw (Server.on_connection sid) s = false
  /\ Server.listings s' = Server.listings s
  /\ Server.outbox s' =
       Server.outbox s ++
       [(Server.ToAll, Server.users_count (size (Server.clients s')));
        (Server.ToSocket sid, Server.sync_all_listings (Server.listings s))]
  /\ Client.listings
       (JS.exec (Client.receive (Server.sync_all_listings (Server.listings s))) c)
     = Server.listings s.
Proof.
  unfold JS.exec, JS.threw. rewrite on_connection_run. simpl. done.
Qed.

(** ** Applying broadcasts on the client *)

(** C5: an [update-listings] event with action "added" for a listing whose
    id the replica already holds changes nothing at all, so applying the
    same event a second time leaves the state the first application
    produced. *)
Theorem added_is_idempotent (c : Client.State) (m : UpdateMsg) (L : Listing) :
  action m = "added" ->
  listing m = Some L ->
  (l_id L ∈ ids (Client.listings c) ->
   Client.on_update_listings m c = (JS.Normal tt, c))
  /\ JS.exec (Client.on_update_listings m) (JS.exec (Client.on_update_listings m) c)
     = JS.exec (Client.on_update_listings m) c.
Proof.
  intros Ha Hl. split; [by apply added_present|].
  unfold JS.exec.
  destruct (decide (l_id L ∈ ids (Client.listings c))) as [Hin|Hin].
  - rewrite (added_present m L c) by done. simpl. by rewrite (added_present m L c).
  - rewrite (added_absent m L c) by done. simpl.
    rewrite (added_present m L); [done..|].
    simpl. unfold ids. simpl. by left.
Qed.

Lemma added_is_idempotent_witness :
  let c := Client.boot [x2] None None [] in
  let m := mkUpdateMsg "added" (Some x1) None in
  Client.listings (JS.exec (Client.on_update_listings m) c) = [x1; x2]
  /\ JS.exec (Client.on_update_listings m) (JS.exec (Client.on_update_listings m) c)
     = JS.exec (Client.on_update_listings m) c.
Proof.
  split; [reflexivity|].
  exact (proj2 (added_is_idempotent (Client.boot [x2] None None [])
                  (mkUpdateMsg "added" (Some x1) None) x1 eq_refl eq_refl)).
Defined.

(** C7: a delete for an id that the replica does not hold leaves the
    replica as it is, on the client ([update-listings] with action
    "deleted") and on the server ([deleteListing] and the [listing-deleted]
    handler, with either backend and whether or not the backend call
    succeeds). *)
Theorem delete_absent_is_noop (env : Server.Env) (s : Server.State)
    (c : Client.State) (m : UpdateMsg) (x : JsId) :
  action m = "deleted" ->
  listingId m = x ->
  x ∉ ids (Client.listings c) ->
  x ∉ ids (Server.listings s) ->
  Client.listings (JS.exec (Client.on_update_listings m) c) = Client.listings c
  /\ Server.listings (JS.exec (Server.deleteListing env x) s) = Server.listings s
  /\ Server.listings (JS.exec (Server.on_listing_deleted env x) s) = Server.listings s.
Proof.
  intros Ha Hx Hc Hs. unfold JS.exec. split_and!.
  - rewrite deleted_run by done. simpl. rewrite Hx. by apply remove_id_absent.
  - destruct (deleteListing_run env x s) as (s' & -> & Hl & _). simpl. rewrite Hl.
    destruct (saved env s); [by apply remove_id_absent|done].
  - destruct (on_listing_deleted_run env x s) as (s' & -> & Hl & _). simpl. rewrite Hl.
    destruct (saved env s); [by apply remove_id_absent|done].
Qed.

Lemma delete_absent_is_noop_witness :
  Client.listings
    (JS.exec (Client.on_update_listings (mkUpdateMsg "deleted" None (Some "x1")))
       (Client.boot [x2] None None []))
  = [x2]
  /\ Server.listings
       (JS.exec (Server.on_listing_deleted cloud_down (Some "x1"))
          (Server.mkState [x2] ∅ [] [] []))
     = [x2].
Proof.
  assert (Hc : Some "x1" ∉ ids (Client.listings (Client.boot [x2] None None []))).
  { intros H. apply list_elem_of_singleton in H. discriminate H. }
  assert (Hs : Some "x1" ∉ ids (Server.listings (Server.mkState [x2] ∅ [] [] []))).
  { intros H. apply list_elem_of_singleton in H. discriminate H. }
  pose proof (delete_absent_is_noop cloud_down (Server.mkState [x2] ∅ [] [] [])
                (Client.boot [x2] None None [])
                (mkUpdateMsg "deleted" None (Some "x1")) (Some "x1")
                eq_refl eq_refl Hc Hs) as (H1 & _ & H3).
  split; [exact H1|exact H3].
Defined.

(** ** One entry per id *)



(** ** The connect handler *)

(** C2, as stated, fails: with one intent queued, the connect handler emits
    [sync-listings] first and the queued [listing-added] after it, so the
    reconciliation request is not the last event sent. *)
Lemma connect_does_not_drain_first :
  ~ drains_before_sync all_sent (Client.boot [x1] (Some [add_x1]) (Some [x1]) []).
Proof.
  intros (pre & ok & H & _).
  assert (He : Client.emits
            (JS.exec (Client.on_connect all_sent)
               (Client.boot [x1] (Some [add_x1]) (Some [x1]) []))
          = [("sync-listings", Client.AListings [x1], true);
             ("listing-added", Client.AListing (Some x1), true)]) by reflexivity.
  rewrite He in H. simpl in H.
  apply (f_equal last) in H. rewrite last_snoc in H. simpl in H. discriminate H.
Qed.

(** C2, amended: on every [connect] event the client first emits
    [sync-listings] carrying its entire local replica; if that call returns
    and no drain is in progress it then drains the offline queue, one emit
    per pending intent with a known action, in queue order. *)
Theorem connect_syncs_then_drains (env : Client.Env) (s : Client.State) :
  let s' := JS.exec (Client.on_connect env) s in
  let ok := Client.emit_ok env (length (Client.emits s)) in
  exists rest,
    Client.emits s' =
      Client.emits s ++ ("sync-listings", Client.AListings (Client.listings s), ok) :: rest
    /\ fst <$> rest =
         if ok && negb (Client.isSyncing s)
         then wire <$> List.filter (fun u => known_action (Client.u_action u))
                         (snd <$> Client.updateQueue s)
         else [].
Proof.
  intros s' ok. subst s' ok. rewrite on_connect_emits.
  eexists. split; [reflexivity|].
  destruct (Client.emit_ok env (length (Client.emits s)) && negb (Client.isSyncing s));
    [apply attempts_of_wire|done].
Qed.

(** ** Durability of the offline queue *)



(** * Further properties of the server *)

(** ** Saving and looking up *)

Lemma upsert_same x (ls : list Listing) :
  unique_ids ls -> x ∈ ls -> upsert x ls = ls.
Proof.
  intros Hu Hx.
  assert (Hin : l_id x ∈ ids ls) by (by apply list_elem_of_fmap_2).
  destruct (upsert_present x ls Hin) as (idx & y & Hy & Hid & ->).
  apply list_elem_of_lookup in Hx as (j & Hj).
  assert (idx = j) as ->.
  { apply (NoDup_lookup (ids ls) idx j (l_id x)); [done| |];
      unfold ids; rewrite list_lookup_fmap.
    - by rewrite Hy; simpl; rewrite Hid.
    - by rewrite Hj. }
  by apply list_insert_id.
Qed.

Lemma lookup_id_cons i y ls :
  lookup_id i (y :: ls) = if id_eqb (l_id y) i then Some y else lookup_id i ls.
Proof. done. Qed.

Lemma lookup_id_None i ls : lookup_id i ls = None <-> i ∉ ids ls.
Proof. unfold lookup_id. rewrite find_None. apply findIndex_id_None. Qed.

Lemma upsert_cons x y ls :
  upsert x (y :: ls) =
    if id_eqb (l_id y) (l_id x) then x :: ls
    else if decide (l_id x ∈ ids ls) then y :: upsert x ls
         else x :: y :: ls.
Proof.
  unfold upsert. simpl. destruct (id_eqb (l_id y) (l_id x)); [done|].
  destruct (decide (l_id x ∈ ids ls)) as [Hin|Hin].
  - destruct (JS.findIndex _ ls) as [i|] eqn:Hf; [done|].
    by apply findIndex_id_None in Hf.
  - apply findIndex_id_None in Hin. by rewrite Hin.
Qed.

Lemma lookup_id_upsert x ls j :
  lookup_id j (upsert x ls) = if id_eqb (l_id x) j then Some x else lookup_id j ls.
Proof.
  induction ls as [|y ls IH].
  - unfold upsert. simpl. rewrite lookup_id_cons. done.
  - rewrite upsert_cons.
    destruct (id_eqb (l_id y) (l_id x)) eqn:Hyx.
    + apply id_eqb_true in Hyx. rewrite !lookup_id_cons, Hyx.
      by destruct (id_eqb (l_id x) j).
    + destruct (decide (l_id x ∈ ids ls)) as [Hin|Hin].
      * rewrite !lookup_id_cons, IH.
        destruct (id_eqb (l_id y) j) eqn:Hyj; [|done].
        apply id_eqb_true in Hyj. apply id_eqb_false in Hyx.
        assert (Hxj : id_eqb (l_id x) j = false) by (apply id_eqb_false; congruence).
        by rewrite Hxj.
      * rewrite !lookup_id_cons. by destruct (id_eqb (l_id x) j).
Qed.

Lemma new_events_app s s' k :
  Server.outbox s' = Server.outbox s ++ k -> new_events s s' = k.
Proof. intros H. unfold new_events. rewrite H. apply drop_app_length. Qed.




(** X1: sending again, as [listing-added] or [listing-updated], a listing
    that the authoritative replica already holds with the same value leaves
    the replica as it is, with either backend and whatever the backend
    answers. *)
Theorem resave_is_noop (env : Server.Env) (s : Server.State) (x : Listing) :
  unique_ids (Server.listings s) ->
  x ∈ Server.listings s ->
  Server.listings (JS.exec (Server.on_listing_added env (Some x)) s) = Server.listings s
  /\ Server.listings (JS.exec (Server.on_listing_updated env (Some x)) s)
     = Server.listings s.
Proof.
  intros Hu Hx. unfold JS.exec.
  destruct (on_listing_added_run env x s) as (sa & -> & Hla & _).
  destruct (on_listing_updated_run env x s) as (su & -> & Hlu & _).
  simpl. rewrite Hla, Hlu, (upsert_same x _ Hu Hx).
  split; [by destruct (truthy (l_id x) && saved env s)|by destruct (saved env s)].
Qed.

Lemma resave_is_noop_witness :
  Server.listings
    (JS.exec (Server.on_listing_added local_env (Some x2))
       (Server.mkState [x1; x2] ∅ [] [] []))
  = [x1; x2].
Proof.
  refine (proj1 (resave_is_noop local_env (Server.mkState [x1; x2] ∅ [] [] []) x2 _ _)).
  - unfold unique_ids. simpl. apply NoDup_cons. split.
    + intros H. apply list_elem_of_singleton in H. discriminate H.
    + apply NoDup_singleton.
  - simpl. right. left.
Defined.



(** X3: after a [listing-updated] whose save reaches the cache, a lookup by
    the id of the listing returns exactly the value sent (the whole value is
    replaced, no field is merged), and the lookup of every other id is as
    before. *)
Theorem saved_listing_is_found (env : Server.Env) (s : Server.State) (x : Listing) :
  saved env s = true ->
  let s' := JS.exec (Server.on_listing_updated env (Some x)) s in
  lookup_id (l_id x) (Server.listings s') = Some x
  /\ forall j, j <> l_id x ->
       lookup_id j (Server.listings s') = lookup_id j (Server.listings s).
Proof.
  intros Hs s'. subst s'. unfold JS.exec.
  destruct (on_listing_updated_run env x s) as (s' & -> & Hl & _).
  simpl. rewrite Hl, Hs. split.
  - rewrite lookup_id_upsert.
    assert (H : id_eqb (l_id x) (l_id x) = true) by by apply id_eqb_true.
    by rewrite H.
  - intros j Hj. rewrite lookup_id_upsert.
    assert (H : id_eqb (l_id x) j = false) by (apply id_eqb_false; congruence).
    by rewrite H.
Qed.

Lemma saved_listing_is_found_witness :
  lookup_id (Some "x1")
    (Server.listings
       (JS.exec (Server.on_listing_updated local_disk_full (Some x1))
          (Server.mkState [x2; x1_old] ∅ [] [] [])))
  = Some x1.
Proof.
  exact (proj1 (saved_listing_is_found local_disk_full
                  (Server.mkState [x2; x1_old] ∅ [] [] []) x1 eq_refl)).
Defined.

(** X4: a save that reaches the cache keeps the order of the replica: for
    an id the replica has, the ids are the same in the same positions, and
    so is the number of entries; a listing with a new id goes to the
    front. *)
Theorem save_keeps_order (env : Server.Env) (s : Server.State) (x : Listing) :
  saved env s = true ->
  let s' := JS.exec (Server.on_listing_updated env (Some x)) s in
  (l_id x ∈ ids (Server.listings s) ->
     ids (Server.listings s') = ids (Server.listings s)
     /\ length (Server.listings s') = length (Server.listings s))
  /\ (l_id x ∉ ids (Server.listings s) ->
        Server.listings s' = x :: Server.listings s).
Proof.
  intros Hs s'. subst s'. unfold JS.exec.
  destruct (on_listing_updated_run env x s) as (s' & -> & Hl & _).
  simpl. rewrite Hl, Hs. split.
  - intros Hin. assert (Hids := ids_upsert_present x _ Hin). split; [done|].
    unfold ids in Hids. apply (f_equal length) in Hids.
    by rewrite !length_fmap in Hids.
  - apply upsert_absent.
Qed.

Lemma save_keeps_order_witness :
  ids (Server.listings
         (JS.exec (Server.on_listing_updated local_env (Some x1))
            (Server.mkState [x2; x1_old] ∅ [] [] [])))
  = [Some "x2"; Some "x1"].
Proof.
  refine (proj1 (proj1 (save_keeps_order local_env
                          (Server.mkState [x2; x1_old] ∅ [] [] []) x1 eq_refl) _)).
  simpl. right. left.
Defined.

(** X5: a reconciliation request that brings nothing new (not an array, an
    empty array, or only null entries, entries without a usable id and
    entries whose id the server has) is a pure read: no backend call, no
    change of the replica, and still one full-state push to every
    channel. *)
Theorem sync_without_news_is_a_read (env : Server.Env) (s : Server.State)
    (cl : option (list Payload)) :
  (forall x, Some x ∈ default [] cl -> truthy (l_id x) = true ->
             l_id x ∈ ids (Server.listings s)) ->
  Server.on_sync_listings env cl s =
    (JS.Normal tt,
     Server.mkState (Server.listings s) (Server.clients s) (Server.backend s)
       (Server.outbox s ++ [(Server.ToAll, Server.sync_all_listings (Server.listings s))])
       (Server.errors s)).
Proof.
  intros H.
  assert (He : Server.toAdd (Server.listings s) (default [] cl) = []).
  { destruct (Server.toAdd _ _) as [|y ys] eqn:E; [done|].
    assert (Hy : y ∈ Server.toAdd (Server.listings s) (default [] cl))
      by (rewrite E; by left).
    apply elem_of_toAdd in Hy as (Hc & Ht & Hn). by specialize (H y Hc Ht). }
  rewrite on_sync_listings_unfold, He. unfold Server.emit. js_unfold. done.
Qed.

Lemma sync_without_news_is_a_read_witness :
  Server.backend
    (JS.exec (Server.on_sync_listings cloud_down (Some [None; Some no_id; Some x2_stale]))
       (Server.mkState [x2] ∅ [] [] []))
  = [].
Proof.
  unfold JS.exec.
  rewrite (sync_without_news_is_a_read cloud_down (Server.mkState [x2] ∅ [] [] [])
             (Some [None; Some no_id; Some x2_stale])); [reflexivity|].
  intros x Hx Ht. simpl in Hx.
  apply elem_of_cons in Hx as [Hx|Hx]; [discriminate Hx|].
  apply elem_of_cons in Hx as [Hx|Hx]; [injection Hx as ->; discriminate Ht|].
  apply list_elem_of_singleton in Hx. injection Hx as ->. simpl. left.
Defined.

(** X6: every [listing-added], [listing-updated] (with a non-null payload)
    and [listing-deleted] event puts exactly one [update-listings] event in
    the outbox, and every socket, the sender included, is delivered exactly
    that one event, whatever the backend and its answer. *)
Theorem mutation_fans_out (env : Server.Env) (s : Server.State) (sid : string)
    (x : Listing) (i : JsId) :
  omap (delivered_to sid) (new_events s (JS.exec (Server.on_listing_added env (Some x)) s))
    = [Server.update_listings (mkUpdateMsg "added" (Some x) None)]
  /\ omap (delivered_to sid)
       (new_events s (JS.exec (Server.on_listing_updated env (Some x)) s))
     = [Server.update_listings (mkUpdateMsg "updated" (Some x) None)]
  /\ omap (delivered_to sid) (new_events s (JS.exec (Server.on_listing_deleted env i) s))
     = [Server.update_listings (mkUpdateMsg "deleted" None i)].
Proof.
  unfold JS.exec.
  destruct (on_listing_added_run env x s) as (sa & -> & _ & _ & Hoa & _).
  destruct (on_listing_updated_run env x s) as (su & -> & _ & _ & Hou & _).
  destruct (on_listing_deleted_run env i s) as (sd & -> & _ & _ & Hod).
  simpl. by rewrite (new_events_app _ _ _ Hoa), (new_events_app _ _ _ Hou),
    (new_events_app _ _ _ Hod).
Qed.

(** ** Replication from server to client *)












(** X24: a reconciliation round brings every client to the authoritative
    replica, whatever it held: after the server has handled a
    [sync-listings] event, from any socket and with any payload, a client
    that applies what it is delivered holds exactly the replica of the
    server. *)
Theorem sync_round_converges (env : Server.Env) (s : Server.State)
    (cl : option (list Payload)) (sid : string) (c : Client.State) :
  let s' := JS.exec (Server.on_sync_listings env cl) s in
  Client.listings (client_applies (omap (delivered_to sid) (new_events s s')) c)
  = Server.listings s'
  /\ exists P, Server.listings s' = P ++ Server.listings s.
Proof.
  intros s'. subst s'. unfold JS.exec.
  destruct (on_sync_listings_run env cl s) as (s' & P & -> & Hl & _ & _ & _ & Ho & _).
  cbn [snd]. rewrite (new_events_app _ _ _ Ho). split; [done|by exists P].
Qed.

(** ** The local file mirrors the replica *)

Section LocalDisk.

Import Server.
Variable env : Env.
Hypothesis Hlocal : local_mode env = true.
Hypothesis Hok : forall n, write_ok env n = true.

Lemma saveListing_local x s :
saveListing env x s =
  (JS.Normal tt,
   mkState (upsert x (listings s)) (clients s)
     (backend s ++ [(WriteFile (upsert x (listings s)), true)])
     (outbox s) (errors s)).
Proof.
unfold saveListing, saveListingsLocal, await_persist, persist. js_unfold.
rewrite Hlocal. simpl. by rewrite Hok.
Qed.

Lemma deleteListing_local i s :
deleteListing env i s =
  (JS.Normal tt,
   mkState (remove_id i (listings s)) (clients s)
     (backend s ++ [(WriteFile (remove_id i (listings s)), true)])
     (outbox s) (errors s)).
Proof.
unfold deleteListing, saveListingsLocal, await_persist, persist. js_unfold.
rewrite Hlocal. simpl. by rewrite Hok.
Qed.

Lemma reloaded_disk_snoc f log ls :
reloaded (disk f (log ++ [(WriteFile ls, true)])) = ls.
Proof. unfold disk. by rewrite foldl_app. Qed.

Lemma for_of_saveListing_local f adds : forall s,
reloaded (disk f (backend s)) = listings s ->
exists s', JS.for_of adds (saveListing env) s = (JS.Normal tt, s')
  /\ reloaded (disk f (backend s')) = listings s'.
Proof.
induction adds as [|x adds IH]; intros s Hs.
- by exists s.
- simpl. unfold JS.bind. rewrite saveListing_local.
  apply IH. cbn [backend listings]. apply reloaded_disk_snoc.
Qed.

Lemma handle_mirrors f sid ev s :
reloaded (disk f (backend s)) = listings s ->
reloaded (disk f (backend (JS.exec (handle env sid ev) s)))
= listings (JS.exec (handle env sid ev) s).
Proof.
intros Hs. unfold JS.exec. destruct ev as [|p|i|p|cl|]; cbn [handle].
- by rewrite on_connection_run.
- destruct p as [x|]; [|by rewrite on_listing_added_null].
  unfold on_listing_added, get_title, emit. js_unfold.
  destruct (truthy (l_id x)); [|done].
  rewrite saveListing_local. cbn [snd backend listings]. apply reloaded_disk_snoc.
- unfold on_listing_deleted, emit. js_unfold.
  rewrite deleteListing_local. cbn [snd backend listings]. apply reloaded_disk_snoc.
- destruct p as [x|]; [|by rewrite on_listing_updated_null].
  unfold on_listing_updated, get_id, emit. js_unfold.
  rewrite saveListing_local. cbn [snd backend listings]. apply reloaded_disk_snoc.
- rewrite on_sync_listings_unfold.
  destruct (for_of_saveListing_local f (toAdd (listings s) (default [] cl)) s Hs)
    as (s' & Hfor & Hs').
  unfold emit. js_unfold. rewrite Hfor. done.
- by rewrite on_disconnect_run.
Qed.

Lemma run_mirrors f tr : forall s,
reloaded (disk f (backend s)) = listings s ->
reloaded (disk f (backend (run env tr s))) = listings (run env tr s).
Proof.
induction tr as [|[sid ev] tr IH]; intros s Hs; [done|].
rewrite run_cons. apply IH. by apply handle_mirrors.
Qed.

End LocalDisk.

(** X10: with the local file as backend and a disk that takes every write,
    the file mirrors the replica after every handler: a server started on
    a data file, run through any trace of events and then restarted on the
    file it left, comes up with exactly the replica it had. *)
Theorem local_restart_restores_replica (env : Server.Env) (f : Startup.DataFile)
    (snapshot : option (list Listing)) (tr : list (string * Server.Inbound)) :
  Server.useCloudBackend env = false ->
  (forall n, Server.write_ok env n = true) ->
  let s := Server.run env tr (Startup.start env f snapshot) in
  Server.listings (Startup.start env (disk f (Server.backend s)) snapshot)
  = Server.listings s.
Proof.
  intros Hcloud Hok s. subst s. unfold Startup.start. rewrite Hcloud.
  assert (Hlocal : Server.local_mode env = true)
    by (unfold Server.local_mode; by rewrite Hcloud).
  apply (run_mirrors env Hlocal Hok f tr).
  unfold reloaded, Startup.loadListingsLocal, Server.console_error. js_unfold.
  by destruct f.
Qed.

Lemma local_restart_restores_replica_witness :
  let tr := [("a", Server.connection);
             ("a", Server.listing_added (Some x1));
             ("a", Server.listing_deleted (Some "x2"))] in
  let s := Server.run local_env tr (Startup.start local_env (Startup.Content [x2]) None) in
  Server.listings (Startup.start local_env (disk (Startup.Content [x2]) (Server.backend s))
                     None)
  = [x1].
Proof.
  intros tr s.
  etrans; [|reflexivity].
  exact (local_restart_restores_replica local_env (Startup.Content [x2]) None tr
           eq_refl (fun _ => eq_refl)).
Defined.

(** ** The upload endpoint *)





(** * Further properties of the client *)

Section ClientSession.

Import Client.
Variable env : Env.

Lemma on_update_listings_frame m c :
let c' := JS.exec (on_update_listings m) c in
updateQueue c' = updateQueue c /\ stored_queue c' = stored_queue c
/\ emits c' = emits c /\ isConnected c' = isConnected c
/\ isSyncing c' = isSyncing c /\ next_ref c' = next_ref c.
Proof.
unfold on_update_listings, get_id, showNotification, set_listings. js_unfold.
repeat (case_match; simpl); done.
Qed.

Lemma receive_frame e c :
let c' := JS.exec (receive e) c in
updateQueue c' = updateQueue c /\ stored_queue c' = stored_queue c
/\ emits c' = emits c /\ isConnected c' = isConnected c
/\ isSyncing c' = isSyncing c /\ next_ref c' = next_ref c.
Proof.
destruct e as [n|ls|m]; [done|done|]. apply on_update_listings_frame.
Qed.

(** A drain leaves storage and queue in agreement, whatever it sends. *)
Lemma processUpdateQueue_sync s :
storage_in_sync s -> storage_in_sync (JS.exec (processUpdateQueue env) s).
Proof.
intros Hs. unfold processUpdateQueue, JS.exec. unfold JS.bind at 1, JS.get.
destruct (negb (isConnected s) || Nat.eqb (length (updateQueue s)) 0 || isSyncing s);
  [done|].
destruct (drain_loop env (updateQueue s) (set_syncing true s)) as (s1 & Hfor & _).
unfold JS.bind at 1, JS.modify at 1. unfold JS.bind at 1. rewrite Hfor.
unfold saveUpdateQueue, showNotification, set_syncing. js_unfold. done.
Qed.

Lemma socket_emit_sync event arg s :
storage_in_sync s -> storage_in_sync (JS.exec (socket_emit env event arg) s).
Proof. unfold socket_emit, JS.exec. simpl. by destruct (emit_ok env _). Qed.

Lemma queueUpdate_sync uid ts act data s :
storage_in_sync (JS.exec (queueUpdate uid ts act data) s).
Proof. unfold JS.exec. by rewrite queueUpdate_run. Qed.

Lemma on_connect_sync s :
storage_in_sync s -> storage_in_sync (JS.exec (on_connect env) s).
Proof.
intros Hs. unfold on_connect, JS.exec.
unfold JS.bind at 1, JS.modify at 1. unfold JS.bind at 1, JS.gets at 1.
unfold JS.bind at 1, socket_emit at 1. cbn [set_connected emits listings].
destruct (emit_ok env (length (emits s))); [|done].
apply processUpdateQueue_sync. done.
Qed.

Lemma on_reconnect_sync s :
storage_in_sync s -> storage_in_sync (JS.exec (on_reconnect env) s).
Proof.
intros Hs. unfold on_reconnect, JS.exec. unfold JS.bind at 1, JS.modify at 1.
apply processUpdateQueue_sync. done.
Qed.

Lemma saveListings_dispatch_sync uid ts act data s :
storage_in_sync s ->
storage_in_sync (JS.exec (Ui.saveListings env;; Ui.dispatch env uid ts act data) s).
Proof.
intros Hs. unfold Ui.saveListings, Ui.dispatch, JS.exec.
unfold JS.bind at 1. unfold JS.bind at 1, JS.modify at 1.
unfold JS.bind at 1, JS.get at 1, JS.when. cbn [isConnected listings].
destruct (isConnected s) eqn:Hc.
- unfold socket_emit at 1. cbn [emits].
  destruct (emit_ok env (length (emits s))); [|done].
  unfold JS.bind, JS.get. cbn [isConnected]. rewrite ?Hc.
  by apply socket_emit_sync.
- unfold JS.ret at 1. unfold JS.bind, JS.get. cbn [isConnected]. rewrite ?Hc. simpl.
  apply queueUpdate_sync.
Qed.

Lemma step_sync st s :
storage_in_sync s -> storage_in_sync (JS.exec (Ui.step env st) s).
Proof.
intros Hs. destruct st as [e| | | |confirmed uid ts id|admin uid ts x]; cbn [Ui.step].
- destruct (receive_frame e s) as (Hq & Hst & _).
  unfold storage_in_sync. by rewrite Hq, Hst.
- by apply on_connect_sync.
- done.
- by apply on_reconnect_sync.
- unfold Ui.deleteListing. destruct confirmed; [|done]. cbn [negb].
  unfold JS.exec, JS.bind at 1, JS.modify at 1.
  by apply saveListings_dispatch_sync.
- unfold Ui.createListing. destruct admin; [|done]. cbn [negb].
  unfold JS.exec, JS.bind at 1, JS.modify at 1.
  by apply saveListings_dispatch_sync.
Qed.

End ClientSession.

(** X13: on a loaded page, after every step (an event from the server, a
    connect, disconnect or reconnect, a local create or delete), the queue
    in [localStorage] is the queue in memory, whatever [socket.emit] does:
    reloading the page after any step restores every pending intent, in
    order. *)
Theorem stored_queue_follows_queue (env : Client.Env) (defaults : list Listing)
    (sq : option (list Client.Update)) (sl : option (list Listing))
    (net : list (string * Client.Arg * bool)) (steps : list Ui.Step) :
  let s := Ui.session env steps (Client.boot defaults sq sl net) in
  storage_in_sync s
  /\ snd <$> Client.updateQueue (Client.restart defaults s) = snd <$> Client.updateQueue s.
Proof.
  intros s.
  assert (Hs : storage_in_sync s).
  { subst s. unfold Ui.session.
    induction steps as [|st steps IH] using rev_ind.
    - change (storage_in_sync (Client.boot defaults sq sl net)).
      unfold storage_in_sync. rewrite boot_run.
      cbn [Client.stored_queue Client.updateQueue].
      by destruct (zip_seq_refs (default [] sq) 0) as [_ ->].
    - rewrite foldl_app. simpl. by apply step_sync. }
  split; [done|].
  unfold Client.restart. rewrite boot_run. cbn [Client.updateQueue].
  destruct (zip_seq_refs (default [] (Client.stored_queue s)) 0) as [_ ->]. done.
Qed.

(** ** Drains after the first *)

Section Retry.

Import Client.
Variable env : Env.

Lemma length_outcomes n len : length (outcomes env n len) = len.
Proof. unfold outcomes. by rewrite length_fmap, length_seq. Qed.

Lemma failed_subset us oks u : u ∈ failed us oks -> u ∈ us.
Proof.
unfold failed. intros H. apply list_elem_of_fmap in H as ([u' ok] & -> & H).
apply list_elem_of_In, filter_In in H as [H _]. apply list_elem_of_In in H.
by apply elem_of_zip_l in H.
Qed.

Lemma attempts_of_unknown q : forall n,
Forall (fun u => known_action (u_action u) = false) (snd <$> q) ->
attempts_of env n q = [] /\ kept_of env n q = [].
Proof.
induction q as [|u q IH]; intros n Hk; [done|].
rewrite fmap_cons in Hk. apply Forall_cons in Hk as [Hu Hk].
simpl. rewrite Hu. by apply IH.
Qed.

Lemma on_connect_then s :
emit_ok env (length (emits s)) = true ->
isSyncing s = false ->
NoDup (fst <$> updateQueue s) ->
exists s',
  on_connect env s = (JS.Normal tt, s')
  /\ emits s' =
       emits s ++
       ("sync-listings", AListings (listings s), true)
         :: attempts_of env (S (length (emits s))) (updateQueue s)
  /\ updateQueue s' = kept_of env (S (length (emits s))) (updateQueue s)
  /\ isConnected s' = true /\ isSyncing s' = false /\ listings s' = listings s.
Proof.
intros Hok Hsync Hnd. unfold on_connect.
unfold JS.bind at 1, JS.modify at 1. unfold JS.bind at 1, JS.gets at 1.
unfold JS.bind at 1, socket_emit at 1.
cbn [set_connected emits listings]. rewrite Hok.
match goal with |- context [processUpdateQueue env ?s0] =>
  destruct (processUpdateQueue_run env s0 eq_refl Hsync)
    as (s' & -> & He & Hc & Hs & Hl & Hq)
end.
cbn [emits updateQueue listings] in He, Hq, Hl.
destruct (Hq Hnd) as [Hq1 _].
exists s'. split; [done|].
rewrite length_app in He, Hq1. simpl in He, Hq1. rewrite Nat.add_1_r in He, Hq1.
split_and!; try done. by rewrite He, <- app_assoc.
Qed.

End Retry.

(** X14: a drain retries what the previous one could not send, and nothing
    else. After a connect whose drain attempted every pending intent, the
    drain of the following [reconnect] event attempts exactly the intents
    whose emit had raised, once each and in order; when every emit had
    returned it attempts nothing. *)
Theorem reconnect_retries_the_failed (env : Client.Env) (s : Client.State) :
  Client.emit_ok env (length (Client.emits s)) = true ->
  Client.isSyncing s = false ->
  NoDup (fst <$> Client.updateQueue s) ->
  Forall (fun u => known_action (Client.u_action u) = true) (snd <$> Client.updateQueue s) ->
  let pending := snd <$> Client.updateQueue s in
  let n := S (length (Client.emits s)) in
  let retry := failed pending (outcomes env n (length pending)) in
  let s1 := JS.exec (Client.on_connect env) s in
  let s2 := JS.exec (Client.on_reconnect env) s1 in
  Client.emits s2 =
    Client.emits s1 ++
    zip_with attempt retry (outcomes env (n + length pending) (length retry)).
Proof.
  intros Hok Hsync Hnd Hknown pending n retry s1 s2.
  destruct (on_connect_then env s Hok Hsync Hnd) as (s1' & Hrun & He1 & Hq1 & Hc1 & Hs1 & _).
  assert (s1 = s1') as -> by (subst s1; unfold JS.exec; by rewrite Hrun).
  clear Hrun.
  assert (Hretry : snd <$> Client.updateQueue s1' = retry).
  { rewrite Hq1, kept_of_known by done. subst retry pending n. by rewrite length_fmap. }
  assert (Hlen : length (Client.emits s1') = n + length pending).
  { rewrite He1, attempts_of_known by done. rewrite length_app. simpl.
    rewrite length_zip_with, length_outcomes. subst n pending.
    rewrite !length_fmap. lia. }
  subst s2. unfold Client.on_reconnect, JS.exec. unfold JS.bind at 1, JS.modify at 1.
  match goal with |- context [Client.processUpdateQueue env ?s0] =>
    destruct (processUpdateQueue_run env s0 eq_refl Hs1) as (s2 & -> & He2 & _)
  end.
  cbn [snd Client.set_connected Client.emits Client.updateQueue] in He2 |- *.
  rewrite He2, attempts_of_known.
  - by rewrite Hretry, Hlen, <- Hretry, length_fmap.
  - rewrite Hretry. apply Forall_forall. intros u Hu.
    rewrite Forall_forall in Hknown. apply Hknown. by apply failed_subset in Hu.
Qed.

Lemma reconnect_retries_the_failed_witness :
  let s := Client.restart [x2]
             (enqueue_all [add_x1; delete_x2] (Client.boot [x2] None None [])) in
  let s1 := JS.exec (Client.on_connect second_fails) s in
  Client.emits (JS.exec (Client.on_reconnect second_fails) s1)
  = Client.emits s1 ++ [("listing-added", Client.AListing (Some x1), true)].
Proof.
  intros s s1.
  etrans; [|reflexivity].
  apply (reconnect_retries_the_failed second_fails s).
  - reflexivity.
  - reflexivity.
  - vm_compute. apply NoDup_cons. split; [|apply NoDup_singleton].
    intros H. apply list_elem_of_singleton in H. discriminate H.
  - repeat constructor.
Defined.

(** X15: a drain discards the intents whose action it does not know. On a
    connected client, a queue holding only such intents is emptied, in
    memory and in storage, without a single call of [socket.emit], and the
    notification counts them all as synced. *)
Theorem unknown_intents_are_dropped (env : Client.Env) (s : Client.State) :
  Client.isConnected s = true ->
  Client.isSyncing s = false ->
  NoDup (fst <$> Client.updateQueue s) ->
  Client.updateQueue s <> [] ->
  Forall (fun u => known_action (Client.u_action u) = false)
    (snd <$> Client.updateQueue s) ->
  let s' := JS.exec (Client.processUpdateQueue env) s in
  Client.emits s' = Client.emits s
  /\ Client.updateQueue s' = []
  /\ Client.stored_queue s' = Some []
  /\ Client.notifications s' =
       Client.notifications s ++ [Client.offline_synced (length (Client.updateQueue s))].
Proof.
  intros Hc Hs Hnd Hne Hunk s'.
  destruct (Client.updateQueue s) as [|u q] eqn:Hq; [done|].
  destruct (drain_loop env (u :: q) (Client.set_syncing true s))
    as (s1 & Hfor & He & Hp & Hk).
  assert (Hs' : s' =
    Client.mkState (Client.isConnected s1) (Client.updateQueue s1) false
      (Client.listings s1) (Client.next_ref s1) (Some (snd <$> Client.updateQueue s1))
      (Client.stored_listings s1) (Client.emits s1)
      (Client.notifications s1 ++ [Client.offline_synced (length (u :: q))])
      (Client.errors s1)).
  { subst s'. unfold Client.processUpdateQueue, JS.exec. unfold JS.bind at 1, JS.get.
    rewrite Hc, Hs, Hq.
    change (negb true || Nat.eqb (length (u :: q)) 0 || false) with false. cbv iota.
    unfold JS.bind at 1, JS.modify at 1. unfold JS.bind at 1. rewrite Hfor.
    unfold Client.saveUpdateQueue, Client.showNotification, Client.set_syncing.
    js_unfold. reflexivity. }
  rewrite Hs'.
  cbn [Client.emits Client.updateQueue Client.stored_queue Client.notifications].
  destruct (attempts_of_unknown env (u :: q)
              (length (Client.emits (Client.set_syncing true s))) Hunk) as [Ha Hkept].
  specialize (Hk [] Hq Hnd). rewrite Hkept in Hk. simpl in Hk.
  rewrite Ha, app_nil_r in He.
  destruct Hp as (_ & _ & _ & _ & _ & _ & Hn).
  rewrite He, Hk, Hn. done.
Qed.

Lemma unknown_intents_are_dropped_witness :
  let s := Client.set_connected true
             (Client.boot [x2]
                (Some [Client.mkUpdate 5 "listing-archived" (Client.AId (Some "x2")) 5])
                None []) in
  Client.stored_queue (JS.exec (Client.processUpdateQueue all_sent) s) = Some []
  /\ Client.emits (JS.exec (Client.processUpdateQueue all_sent) s) = [].
Proof.
  intros s.
  destruct (unknown_intents_are_dropped all_sent s) as (He & _ & Hst & _).
  - reflexivity.
  - reflexivity.
  - apply NoDup_singleton.
  - discriminate.
  - repeat constructor.
  - split; [exact Hst|exact He].
Defined.

(** ** Local mutations *)

Section LocalMutations.

Import Client.
Variable env : Env.

Lemma saveListings_dispatch_offline uid ts act data s :
isConnected s = false ->
(Ui.saveListings env;; Ui.dispatch env uid ts act data) s =
  (JS.Normal tt,
   mkState (isConnected s)
     (updateQueue s ++ [(next_ref s, intent uid ts act data)])
     (isSyncing s) (listings s) (S (next_ref s))
     (Some (snd <$> (updateQueue s ++ [(next_ref s, intent uid ts act data)])))
     (Some (listings s)) (emits s) (notifications s) (errors s)).
Proof.
intros Hc. unfold Ui.saveListings, Ui.dispatch.
unfold JS.bind at 1. unfold JS.bind at 1, JS.modify at 1.
unfold JS.bind at 1, JS.get at 1, JS.when. cbn [isConnected listings]. rewrite Hc.
unfold JS.ret at 1. unfold JS.bind, JS.get. cbn [isConnected]. rewrite ?Hc. simpl.
by rewrite queueUpdate_run.
Qed.

Lemma saveListings_dispatch_online uid ts act data s :
isConnected s = true ->
emit_ok env (length (emits s)) = true ->
emit_ok env (S (length (emits s))) = true ->
(Ui.saveListings env;; Ui.dispatch env uid ts act data) s =
  (JS.Normal tt,
   mkState (isConnected s) (updateQueue s) (isSyncing s) (listings s) (next_ref s)
     (stored_queue s) (Some (listings s))
     (emits s ++ [("sync-listings", AListings (listings s), true); (act, data, true)])
     (notifications s) (errors s)).
Proof.
intros Hc H1 H2. unfold Ui.saveListings, Ui.dispatch.
unfold JS.bind at 1. unfold JS.bind at 1, JS.modify at 1.
unfold JS.bind at 1, JS.get at 1, JS.when. cbn [isConnected listings]. rewrite Hc.
unfold socket_emit at 1. cbn [emits]. rewrite H1.
unfold JS.bind, JS.get. cbn [isConnected]. rewrite ?Hc.
unfold socket_emit. cbn [emits]. rewrite length_app. simpl. rewrite Nat.add_1_r, H2.
by rewrite <- app_assoc.
Qed.

End LocalMutations.

(** X16: a delete the user confirmed is first applied to the replica and
    written to storage, then dispatched exactly once. Connected, the client
    emits [sync-listings] with the replica already reduced and then
    [listing-deleted] with the id, and the queue is untouched; disconnected,
    it emits nothing and appends one [listing-deleted] intent to the queue
    in memory and in storage. A delete the user declined changes
    nothing. *)
Theorem confirmed_delete_is_dispatched_once (env : Client.Env) (s : Client.State)
    (uid ts : nat) (id : string) :
  (Client.isConnected s = true ->
     Client.emit_ok env (length (Client.emits s)) = true
     /\ Client.emit_ok env (S (length (Client.emits s))) = true) ->
  let s' := JS.exec (Ui.deleteListing env true uid ts id) s in
  let L := remove_id (Some id) (Client.listings s) in
  let u := intent uid ts "listing-deleted" (Client.AId (Some id)) in
  Ui.deleteListing env false uid ts id s = (JS.Normal tt, s)
  /\ Client.listings s' = L
  /\ Client.stored_listings s' = Some L
  /\ (if Client.isConnected s then
        Client.emits s' =
          Client.emits s ++
          [("sync-listings", Client.AListings L, true);
           ("listing-deleted", Client.AId (Some id), true)]
        /\ Client.updateQueue s' = Client.updateQueue s
        /\ Client.stored_queue s' = Client.stored_queue s
      else
        Client.emits s' = Client.emits s
        /\ Client.updateQueue s' = Client.updateQueue s ++ [(Client.next_ref s, u)]
        /\ Client.stored_queue s' = Some ((snd <$> Client.updateQueue s) ++ [u])).
Proof.
  intros Hem s' L u. split; [done|].
  assert (Hs' : s' =
    snd ((Ui.saveListings env;;
          Ui.dispatch env uid ts "listing-deleted" (Client.AId (Some id)))
           (Client.set_listings (remove_id (Some id)) s))) by done.
  rewrite Hs'. clear Hs'.
  destruct (Client.isConnected s) eqn:Hc.
  - destruct (Hem eq_refl) as [H1 H2].
    rewrite saveListings_dispatch_online by done. done.
  - rewrite saveListings_dispatch_offline by done.
    cbn [snd Client.listings Client.stored_listings Client.emits Client.updateQueue
         Client.stored_queue Client.set_listings Client.next_ref].
    by rewrite fmap_app.
Qed.

Lemma confirmed_delete_is_dispatched_once_witness :
  let s := Client.set_connected true (Client.boot [x1; x2] None None []) in
  Client.emits (JS.exec (Ui.deleteListing all_sent true 8 9 "x2") s)
  = [("sync-listings", Client.AListings [x1], true);
     ("listing-deleted", Client.AId (Some "x2"), true)].
Proof.
  intros s.
  destruct (confirmed_delete_is_dispatched_once all_sent s 8 9 "x2")
    as (_ & _ & _ & He & _).
  - intros _. split; reflexivity.
  - exact He.
Defined.

(** X17: a listing created by an admin is put in front of the replica and
    written to storage, then dispatched exactly once: connected, the client
    emits [sync-listings] with the replica that holds it and then
    [listing-added] with the listing; disconnected, it emits nothing and
    appends one [listing-added] intent to the queue in memory and in
    storage. Without the admin flag the submit changes nothing. *)
Theorem created_listing_is_dispatched_once (env : Client.Env) (s : Client.State)
    (uid ts : nat) (x : Listing) :
  (Client.isConnected s = true ->
     Client.emit_ok env (length (Client.emits s)) = true
     /\ Client.emit_ok env (S (length (Client.emits s))) = true) ->
  let s' := JS.exec (Ui.createListing env true uid ts x) s in
  let L := x :: Client.listings s in
  let u := intent uid ts "listing-added" (Client.AListing (Some x)) in
  Ui.createListing env false uid ts x s = (JS.Normal tt, s)
  /\ Client.listings s' = L
  /\ Client.stored_listings s' = Some L
  /\ (if Client.isConnected s then
        Client.emits s' =
          Client.emits s ++
          [("sync-listings", Client.AListings L, true);
           ("listing-added", Client.AListing (Some x), true)]
        /\ Client.updateQueue s' = Client.updateQueue s
        /\ Client.stored_queue s' = Client.stored_queue s
      else
        Client.emits s' = Client.emits s
        /\ Client.updateQueue s' = Client.updateQueue s ++ [(Client.next_ref s, u)]
        /\ Client.stored_queue s' = Some ((snd <$> Client.updateQueue s) ++ [u])).
Proof.
  intros Hem s' L u. split; [done|].
  assert (Hs' : s' =
    snd ((Ui.saveListings env;;
          Ui.dispatch env uid ts "listing-added" (Client.AListing (Some x)))
           (Client.set_listings (cons x) s))) by done.
  rewrite Hs'. clear Hs'.
  destruct (Client.isConnected s) eqn:Hc.
  - destruct (Hem eq_refl) as [H1 H2].
    rewrite saveListings_dispatch_online by done. done.
  - rewrite saveListings_dispatch_offline by done.
    cbn [snd Client.listings Client.stored_listings Client.emits Client.updateQueue
         Client.stored_queue Client.set_listings Client.next_ref].
    by rewrite fmap_app.
Qed.

Lemma created_listing_is_dispatched_once_witness :
  let s := Client.set_connected true (Client.boot [x2] None None []) in
  Client.emits (JS.exec (Ui.createListing all_sent true 8 9 x1) s)
  = [("sync-listings", Client.AListings [x1; x2], true);
     ("listing-added", Client.AListing (Some x1), true)].
Proof.
  intros s.
  destruct (created_listing_is_dispatched_once all_sent s 8 9 x1)
    as (_ & _ & _ & He & _).
  - intros _. split; reflexivity.
  - exact He.
Defined.

(** ** An offline delete, end to end *)

(** X18: a listing deleted offline is gone everywhere after the next
    connection. A disconnected client with an empty queue deletes a
    listing and connects; every emit returns and no save fails on the
    server. When the server has handled the two events the client sent
    (the reconciliation request, then the queued [listing-deleted]) and the
    client has applied what it was delivered in answer, the authoritative
    replica has no entry with that id, the client holds the authoritative
    replica, and its queue is empty. *)
Theorem offline_delete_reaches_everyone (envc : Client.Env) (envs : Server.Env)
    (c : Client.State) (s : Server.State) (sid : string) (uid ts : nat) (id : string) :
  (forall n, Client.emit_ok envc n = true) ->
  no_failure envs ->
  Client.isConnected c = false ->
  Client.isSyncing c = false ->
  Client.updateQueue c = [] ->
  let c1 := JS.exec (Ui.deleteListing envc true uid ts id) c in
  let c2 := JS.exec (Client.on_connect envc) c1 in
  let sent := drop (length (Client.emits c)) (Client.emits c2) in
  let s' := Server.run envs (delivered_by sid sent) s in
  let c3 := client_applies (omap (delivered_to sid) (new_events s s')) c2 in
  (Some id ∉ ids (Server.listings s'))
  /\ Client.listings c3 = Server.listings s'
  /\ Client.updateQueue c3 = [].
Proof.
  intros Hemit Hnf Hc Hsync Hq c1 c2 sent s' c3.
  set (L := remove_id (Some id) (Client.listings c)).
  set (u := intent uid ts "listing-deleted" (Client.AId (Some id))).
  assert (Hc1 : c1 =
    Client.mkState (Client.isConnected c) [(Client.next_ref c, u)] (Client.isSyncing c) L
      (S (Client.next_ref c)) (Some [u]) (Some L) (Client.emits c)
      (Client.notifications c) (Client.errors c)).
  { subst c1. unfold Ui.deleteListing, JS.exec. cbn [negb].
    unfold JS.bind at 1, JS.modify at 1.
    rewrite saveListings_dispatch_offline by done.
    cbn [snd Client.set_listings Client.isConnected Client.updateQueue Client.isSyncing
         Client.listings Client.next_ref Client.emits Client.notifications Client.errors].
    by rewrite Hq. }
  destruct (on_connect_then envc c1) as (c2' & Hrun & He2 & Hq2 & _ & _ & Hl2).
  { apply Hemit. }
  { by rewrite Hc1. }
  { rewrite Hc1. cbn [Client.updateQueue]. apply NoDup_singleton. }
  assert (c2 = c2') as -> by (subst c2; unfold JS.exec; by rewrite Hrun).
  clear Hrun. rewrite Hc1 in He2, Hq2, Hl2.
  cbn [Client.emits Client.updateQueue Client.listings] in He2, Hq2, Hl2.
  simpl in He2, Hq2. rewrite !Hemit in He2, Hq2.
  assert (Hsent : sent =
    [("sync-listings", Client.AListings L, true);
     ("listing-deleted", Client.AId (Some id), true)]).
  { subst sent. rewrite He2. apply drop_app_length. }
  assert (Htr : delivered_by sid sent =
    [(sid, Server.sync_listings (Some (Some <$> L)));
     (sid, Server.listing_deleted (Some id))]) by (by rewrite Hsent).
  assert (Hs' : s' =
    JS.exec (Server.on_listing_deleted envs (Some id))
      (JS.exec (Server.on_sync_listings envs (Some (Some <$> L))) s))
    by (subst s'; by rewrite Htr).
  destruct (on_sync_listings_run envs (Some (Some <$> L)) s)
    as (s1 & P & Hr1 & _ & _ & _ & _ & Ho1 & _).
  destruct (on_listing_deleted_run envs (Some id) s1) as (s2 & Hr2 & Hl & _ & Ho2).
  assert (s' = s2) as ->.
  { rewrite Hs'. unfold JS.exec. rewrite Hr1. cbn [snd]. by rewrite Hr2. }
  clear Hs'. rewrite (no_failure_saved _ _ Hnf) in Hl.
  assert (Hnew : new_events s s2 =
    [(Server.ToAll, Server.sync_all_listings (Server.listings s1));
     broadcast "deleted" None (Some id)]).
  { apply new_events_app. by rewrite Ho2, Ho1, <- app_assoc. }
  subst c3. rewrite Hnew.
  change (omap (delivered_to sid)
            [(Server.ToAll, Server.sync_all_listings (Server.listings s1));
             broadcast "deleted" None (Some id)])
    with [Server.sync_all_listings (Server.listings s1);
          Server.update_listings (mkUpdateMsg "deleted" None (Some id))].
  change (client_applies [?a; ?b] c2')
    with (JS.exec (Client.receive b) (JS.exec (Client.receive a) c2')).
  set (c3a := JS.exec (Client.receive (Server.sync_all_listings (Server.listings s1))) c2').
  assert (Hq3a : Client.updateQueue c3a = []) by (by rewrite <- Hq2).
  destruct (receive_frame (Server.update_listings (mkUpdateMsg "deleted" None (Some id)))
              c3a) as (Hq3 & _).
  split_and!.
  - rewrite Hl. apply removed_id_gone.
  - cbn [Client.receive]. unfold JS.exec. rewrite deleted_run by done.
    cbn [snd Client.listings listingId]. by rewrite Hl.
  - by rewrite Hq3.
Qed.

Lemma offline_delete_reaches_everyone_witness :
  let c := Client.boot [x1; x2] None None [] in
  let s := Server.mkState [x2; x1_old] ∅ [] [] [] in
  let c1 := JS.exec (Ui.deleteListing all_sent true 8 9 "x2") c in
  let c2 := JS.exec (Client.on_connect all_sent) c1 in
  let sent := drop (length (Client.emits c)) (Client.emits c2) in
  let s' := Server.run local_env (delivered_by "a" sent) s in
  let c3 := client_applies (omap (delivered_to "a") (new_events s s')) c2 in
  (Some "x2" ∉ ids (Server.listings s'))
  /\ Client.listings c3 = Server.listings s'
  /\ Client.updateQueue c3 = [].
Proof.
  intros c s.
  apply (offline_delete_reaches_everyone all_sent local_env c s "a" 8 9 "x2").
  - intros n. reflexivity.
  - left. reflexivity.
  - reflexivity.
  - reflexivity.
  - reflexivity.
Defined.

(** * The edit form and the gallery *)

(** ** Lines of the multi-line fields *)

Section FormLines.

Import Form.

Lemma split_lines_no_LF l : LF ∉ l -> split_lines l = [l].
Proof.
induction l as [|c l IH]; intros H; [done|].
apply not_elem_of_cons in H as [Hc Hl]. simpl.
destruct (N.eqb_spec c LF) as [->|_]; [done|]. by rewrite IH.
Qed.

Lemma split_lines_app l rest :
LF ∉ l -> split_lines (l ++ LF :: rest) = l :: split_lines rest.
Proof.
induction l as [|c l IH]; intros H.
- reflexivity.
- apply not_elem_of_cons in H as [Hc Hl]. simpl.
  destruct (N.eqb_spec c LF) as [->|_]; [done|]. by rewrite IH.
Qed.

Lemma split_join lines :
lines <> [] -> Forall (fun l => LF ∉ l) lines -> split_lines (join_lines lines) = lines.
Proof.
induction lines as [|l ls IH]; intros Hne Hall; [done|].
apply Forall_cons in Hall as [Hl Hls].
destruct ls as [|l' ls]; [by apply split_lines_no_LF|].
change (join_lines (l :: l' :: ls)) with (l ++ LF :: join_lines (l' :: ls)).
rewrite split_lines_app by done. f_equal. by apply IH.
Qed.

Lemma split_lines_lines s l : l ∈ split_lines s -> LF ∉ l.
Proof.
revert l. induction s as [|c s IH]; intros l Hl; simpl in Hl.
- apply list_elem_of_singleton in Hl as ->. apply not_elem_of_nil.
- destruct (N.eqb_spec c LF) as [->|Hc].
  + apply elem_of_cons in Hl as [->|Hl]; [apply not_elem_of_nil|by apply IH].
  + destruct (split_lines s) as [|l0 ls] eqn:E.
    * apply list_elem_of_singleton in Hl as ->.
      apply not_elem_of_cons. split; [done|apply not_elem_of_nil].
    * apply elem_of_cons in Hl as [->|Hl].
      -- apply not_elem_of_cons. split; [done|]. apply IH. by left.
      -- apply IH. by right.
Qed.

Lemma dropWhile_head p s c : head (dropWhile p s) = Some c -> p c = false.
Proof.
induction s as [|d s IH]; simpl; [done|].
destruct (p d) eqn:Hd; [done|]. simpl. by intros [= <-].
Qed.

Lemma dropWhile_id p s :
(forall c, head s = Some c -> p c = false) -> dropWhile p s = s.
Proof.
destruct s as [|d s]; [done|]. intros H. simpl. by rewrite (H d eq_refl).
Qed.

Lemma dropWhile_suffix p s : exists pre, s = pre ++ dropWhile p s.
Proof.
induction s as [|d s [pre IH]]; [by exists []|]. simpl.
destruct (p d); [|by exists []]. exists (d :: pre). simpl. by f_equal.
Qed.

Lemma dropWhile_last p s c :
dropWhile p s <> [] -> last s = Some c -> last (dropWhile p s) = Some c.
Proof.
intros Hne Hl. destruct (dropWhile_suffix p s) as [pre Hs].
rewrite Hs, last_app in Hl.
destruct (last (dropWhile p s)) eqn:E; [done|]. by apply last_None in E.
Qed.

Lemma trim_clean l : clean_line l -> trim l = l.
Proof.
intros (_ & _ & Hh & Hl). unfold trim.
rewrite (dropWhile_id _ l Hh), dropWhile_id; [apply reverse_involutive|].
intros c. rewrite head_reverse. apply Hl.
Qed.

Lemma trim_ends s c :
(head (trim s) = Some c \/ last (trim s) = Some c) -> isWhiteSpace c = false.
Proof.
unfold trim. set (a := dropWhile isWhiteSpace s).
set (b := dropWhile isWhiteSpace (reverse a)).
rewrite head_reverse, last_reverse. intros [H|H].
- assert (Hb : b <> []) by (intros E; by rewrite E in H).
  destruct (last (reverse a)) as [d|] eqn:Ha.
  + pose proof (dropWhile_last _ _ d Hb Ha) as Hd. fold b in Hd.
    rewrite H in Hd. injection Hd as <-.
    rewrite last_reverse in Ha. by apply (dropWhile_head _ s).
  + apply last_None in Ha. subst b. by rewrite Ha in Hb.
- by apply (dropWhile_head _ (reverse a)).
Qed.

Lemma trim_subset s c : c ∈ trim s -> c ∈ s.
Proof.
unfold trim. rewrite elem_of_reverse. intros H.
destruct (dropWhile_suffix isWhiteSpace (reverse (dropWhile isWhiteSpace s))) as [p1 H1].
assert (H2 : c ∈ reverse (dropWhile isWhiteSpace s)).
{ rewrite H1. apply elem_of_app. by right. }
rewrite elem_of_reverse in H2.
destruct (dropWhile_suffix isWhiteSpace s) as [p2 H3].
rewrite H3. apply elem_of_app. right. exact H2.
Qed.

Lemma parseLines_clean text l : l ∈ parseLines text -> clean_line l.
Proof.
unfold parseLines. intros H.
apply list_elem_of_In, filter_In in H as [H Hne]. apply list_elem_of_In in H.
apply list_elem_of_fmap in H as (l0 & -> & Hl0).
split_and!.
- intros E. by rewrite E in Hne.
- intros Hin. apply trim_subset in Hin. by apply (split_lines_lines text l0).
- intros c Hc. apply (trim_ends l0). by left.
- intros c Hc. apply (trim_ends l0). by right.
Qed.

Lemma parseLines_join lines :
Forall clean_line lines -> parseLines (join_lines lines) = lines.
Proof.
intros Hall. unfold parseLines.
destruct lines as [|l ls]; [done|].
rewrite split_join; [|done|].
- assert (Ht : trim <$> (l :: ls) = l :: ls).
  { clear -Hall. induction Hall as [|x xs Hx _ IH]; [done|].
    rewrite fmap_cons, IH. by rewrite trim_clean. }
  rewrite Ht. clear Ht.
  induction Hall as [|x xs Hx _ IH]; [done|]. simpl.
  destruct Hx as (Hne & _). destruct x; [done|]. simpl. by rewrite IH.
- eapply Forall_impl; [exact Hall|]. by intros x (_ & Hx & _).
Qed.

End FormLines.

(** X19: every line the form reads from a multi-line field (amenities,
    locations, items of a pricing unit) is not empty, holds no line feed
    and has no white space at either end, whatever the text of the
    field. *)
Theorem parsed_lines_are_clean (text : Form.JsString) (l : Form.JsString) :
  l ∈ Form.parseLines text -> clean_line l.
Proof.
  intros H. destruct (parseLines_clean text l H) as (H1 & H2 & H3 & H4).
  split_and!; assumption.
Qed.

Lemma parsed_lines_are_clean_witness :
  clean_line [87; 105; 70; 105]%N.
Proof.
  apply (parsed_lines_are_clean [32; 32; 10; 9; 87; 105; 70; 105; 160; 10; 10]%N).
  vm_compute. left.
Defined.

(** X20: opening the edit form on a listing and saving without touching a
    multi-line field keeps the field, as far as the two expressions of the
    code go (the field is taken to return the text it was given): the
    lines the form read once are read back unchanged from the text
    [openEditModal] builds of them, and so is any list of lines that are
    not empty, hold no line feed and have no white space at either end. *)
Theorem reopened_field_reads_back (text : Form.JsString) (lines : list Form.JsString) :
  Form.parseLines (Form.join_lines (Form.parseLines text)) = Form.parseLines text
  /\ (Forall clean_line lines -> Form.parseLines (Form.join_lines lines) = lines).
Proof.
  split; [|apply parseLines_join].
  apply parseLines_join, Forall_forall. intros l Hl. by apply (parseLines_clean text).
Qed.

Lemma reopened_field_reads_back_witness :
  Form.parseLines (Form.join_lines [[80; 111; 111; 108]; [87; 105; 70; 105]]%N)
  = [[80; 111; 111; 108]; [87; 105; 70; 105]]%N.
Proof.
  refine (proj2 (reopened_field_reads_back [] [[80; 111; 111; 108]; [87; 105; 70; 105]]%N) _).
  repeat constructor; try discriminate;
    try (intros H; repeat (apply elem_of_cons in H as [H|H]; [discriminate H|]);
         by apply not_elem_of_nil in H);
    intros c [= <-]; reflexivity.
Defined.

(** ** The gallery of the details modal *)

Section GalleryFacts.

Import Gallery.

Lemma or_else_Some a s : is_Some (or_else a (Some s)).
Proof.
unfold or_else. destruct a as [x|]; [|by eexists].
destruct (truthy_string x); by eexists.
Qed.

Lemma open_in_range gallery mainImage : in_range (openDetailsModal gallery mainImage).
Proof.
unfold openDetailsModal, in_range. cbn [currentGallery currentIndex modalImage].
split; [|apply or_else_Some].
destruct gallery as [[|x xs]|]; simpl; try (left; lia);
  destruct mainImage as [m|]; simpl; try (right; done);
  destruct (truthy_string m); simpl; (left; lia) || (right; done).
Qed.

Lemma next_spec st :
currentGallery st <> [] ->
next st =
  mkState (currentGallery st) ((currentIndex st + 1) mod length (currentGallery st))
    (currentGallery st !! ((currentIndex st + 1) mod length (currentGallery st))).
Proof. unfold next. by destruct (currentGallery st). Qed.

Lemma prev_spec st :
currentGallery st <> [] ->
prev st =
  mkState (currentGallery st)
    ((currentIndex st + length (currentGallery st) - 1) mod length (currentGallery st))
    (currentGallery st !!
       ((currentIndex st + length (currentGallery st) - 1)
          mod length (currentGallery st))).
Proof. unfold prev. by destruct (currentGallery st). Qed.

Lemma apply_gallery st o : currentGallery (apply st o) = currentGallery st.
Proof.
destruct o as [| |i]; simpl.
- unfold next. by destruct (currentGallery st) eqn:E.
- unfold prev. by destruct (currentGallery st) eqn:E.
- unfold thumb. by destruct (currentGallery st !! i).
Qed.

Lemma apply_in_range st o : in_range st -> in_range (apply st o).
Proof.
intros [Hi Him]. destruct o as [| |i]; simpl.
- destruct (currentGallery st) as [|g gs] eqn:Hg.
  + unfold next. rewrite Hg. split; [|done]. by rewrite Hg.
  + rewrite next_spec by (by rewrite Hg). unfold in_range.
    cbn [currentGallery currentIndex modalImage].
    assert (Hlt : (currentIndex st + 1) mod length (currentGallery st)
                  < length (currentGallery st))
      by (apply Nat.mod_upper_bound; rewrite Hg; simpl; lia).
    rewrite Hg in *. split; [by left|]. by apply lookup_lt_is_Some.
- destruct (currentGallery st) as [|g gs] eqn:Hg.
  + unfold prev. rewrite Hg. split; [|done]. by rewrite Hg.
  + rewrite prev_spec by (by rewrite Hg). unfold in_range.
    cbn [currentGallery currentIndex modalImage].
    assert (Hlt : (currentIndex st + length (currentGallery st) - 1)
                    mod length (currentGallery st)
                  < length (currentGallery st))
      by (apply Nat.mod_upper_bound; rewrite Hg; simpl; lia).
    rewrite Hg in *. split; [by left|]. by apply lookup_lt_is_Some.
- unfold thumb. destruct (currentGallery st !! i) as [src|] eqn:Hs; [|done].
  split; [|by eexists]. left. cbn [currentGallery currentIndex].
  by eapply lookup_lt_Some.
Qed.

Lemma iter_next k : forall st,
currentGallery st <> [] ->
currentIndex st < length (currentGallery st) ->
currentGallery (Nat.iter k next st) = currentGallery st
/\ currentIndex (Nat.iter k next st)
   = (currentIndex st + k) mod length (currentGallery st).
Proof.
induction k as [|k IH]; intros st Hne Hlt.
- simpl. split; [done|]. rewrite Nat.add_0_r. by rewrite Nat.mod_small.
- destruct (IH st Hne Hlt) as [Hg Hi]. simpl.
  rewrite next_spec by (by rewrite Hg). cbn [currentGallery currentIndex].
  split; [done|]. rewrite Hg, Hi.
  rewrite Nat.Div0.add_mod_idemp_l. f_equal. lia.
Qed.

End GalleryFacts.

(** X21: however the visitor browses the gallery of a listing (next,
    previous, a click on a thumbnail), the gallery stays the one the modal
    was opened with, the index stays inside it, and the source of the
    image shown is never undefined. *)
Theorem gallery_index_stays_in_range (gallery : option (list string))
    (mainImage : option string) (ops : list Gallery.Op) :
  let st0 := Gallery.openDetailsModal gallery mainImage in
  let st := browse st0 ops in
  Gallery.currentGallery st = Gallery.currentGallery st0
  /\ (Gallery.currentGallery st <> [] ->
      Gallery.currentIndex st < length (Gallery.currentGallery st))
  /\ is_Some (Gallery.modalImage st).
Proof.
  intros st0 st.
  assert (H : Gallery.currentGallery st = Gallery.currentGallery st0 /\ in_range st).
  { subst st. unfold browse. induction ops as [|o ops IH] using rev_ind.
    - split; [done|apply open_in_range].
    - rewrite foldl_app. simpl. destruct IH as [IH1 IH2].
      split; [by rewrite apply_gallery|by apply apply_in_range]. }
  destruct H as [Hg [[Hi|[He _]] Him]]; split_and!; try done.
Qed.

(** X22: previous undoes next and next undoes previous: from an index
    inside a gallery, either pair of moves comes back to the same index,
    the last image of the gallery wrapping to the first and back. *)
Theorem prev_undoes_next (st : Gallery.State) :
  Gallery.currentIndex st < length (Gallery.currentGallery st) ->
  Gallery.currentIndex (Gallery.prev (Gallery.next st)) = Gallery.currentIndex st
  /\ Gallery.currentIndex (Gallery.next (Gallery.prev st)) = Gallery.currentIndex st.
Proof.
  intros Hlt.
  assert (Hne : Gallery.currentGallery st <> []).
  { intros E. rewrite E in Hlt. simpl in Hlt. lia. }
  set (n := length (Gallery.currentGallery st)) in *.
  set (i := Gallery.currentIndex st) in *.
  split.
  - rewrite (next_spec st Hne), prev_spec by done.
    cbn [Gallery.currentGallery Gallery.currentIndex]. fold n i.
    destruct (decide (i + 1 = n)) as [E|E].
    + rewrite E, Nat.Div0.mod_same. simpl. rewrite Nat.mod_small by lia. lia.
    + rewrite (Nat.mod_small (i + 1)) by lia.
      replace (i + 1 + n - 1) with (i + 1 * n) by lia.
      rewrite Nat.Div0.mod_add. by apply Nat.mod_small.
  - rewrite (prev_spec st Hne), next_spec by done.
    cbn [Gallery.currentGallery Gallery.currentIndex]. fold n i.
    destruct (decide (i = 0)) as [E|E].
    + rewrite E. simpl. rewrite (Nat.mod_small (n - 1)) by lia.
      replace (n - 1 + 1) with n by lia. apply Nat.Div0.mod_same.
    + replace (i + n - 1) with (i - 1 + 1 * n) by lia.
      rewrite Nat.Div0.mod_add, (Nat.mod_small (i - 1)) by lia.
      replace (i - 1 + 1) with i by lia. by apply Nat.mod_small.
Qed.

Lemma prev_undoes_next_witness :
  Gallery.currentIndex
    (Gallery.prev (Gallery.next (Gallery.mkState ["a.jpg"; "b.jpg"; "c.jpg"] 2 (Some "c.jpg"))))
  = 2.
Proof.
  refine (proj1 (prev_undoes_next
                   (Gallery.mkState ["a.jpg"; "b.jpg"; "c.jpg"] 2 (Some "c.jpg")) _)).
  simpl. lia.
Defined.

(** X23: the gallery is a cycle: from an index inside a gallery, as many
    presses of next as the gallery has images come back to the image one
    started from. *)
Theorem next_goes_round (st : Gallery.State) :
  Gallery.currentIndex st < length (Gallery.currentGallery st) ->
  let st' := Nat.iter (length (Gallery.currentGallery st)) Gallery.next st in
  Gallery.currentIndex st' = Gallery.currentIndex st
  /\ Gallery.currentGallery st' = Gallery.currentGallery st.
Proof.
  intros Hlt st'.
  assert (Hne : Gallery.currentGallery st <> []).
  { intros E. rewrite E in Hlt. simpl in Hlt. lia. }
  destruct (iter_next (length (Gallery.currentGallery st)) st Hne Hlt) as [Hg Hi].
  split; [|done]. subst st'. rewrite Hi.
  replace (Gallery.currentIndex st + length (Gallery.currentGallery st))
    with (Gallery.currentIndex st + 1 * length (Gallery.currentGallery st)) by lia.
  rewrite Nat.Div0.mod_add. by apply Nat.mod_small.
Qed.

Lemma next_goes_round_witness :
  Gallery.currentIndex
    (Nat.iter 3 Gallery.next (Gallery.mkState ["a.jpg"; "b.jpg"; "c.jpg"] 1 (Some "b.jpg")))
  = 1.
Proof.
  refine (proj1 (next_goes_round
                   (Gallery.mkState ["a.jpg"; "b.jpg"; "c.jpg"] 1 (Some "b.jpg")) _)).
  simpl. lia.
Defined.
